(** * mini_arith: a byte-aligned binary arithmetic coder and its models

    A shallow embedding of [main.cpp] (BinArithEncoder, BinArithDecoder,
    BinShiftModel, BitTreeModel) and the properties its specification
    states about them.

    Conventions of the embedding.
    - A C++ unsigned integer of width w is a [Z] in [0, 2^w); every
      operation that can leave that range is followed by the wrap-around
      of its C++ type ([u8], [u16], [u32], [u64]).  [size_t] has 64 bits.
      An [int] used as a bit is a [Z], tested against 0 as [if (bit)]
      does.  A shift by a constant count is [Z.shiftl] or [Z.shiftr]; a
      shift by the template parameter [Inertia] goes through [shr32],
      which is defined only for a count from 0 to 31, as [>>] on a 32-bit
      operand is.  [int] has 32 bits.
    - [ByteVec] is [list byte]; the read cursor of the decoder is a [nat].
    - Member functions are computations in a state-and-failure monad
      [M St A]: they take the object's state, and give back an outcome and
      the state reached.  When a computation stops early the state is the
      one at the point where it stopped, so what had been done before is
      visible.
    - What C++ leaves undefined stops the computation: a read of a
      [ByteVec] past its end with [Undefined], an index outside the model
      array of the bit tree with [BadIndex], a shift by a count outside
      the width of its operand with [BadShift].  A failed [assert] stops
      it with [AssertFailed].
    - [while] loops are structural on a fuel counter and stop with
      [OutOfFuel] when it is used up.  [loop_fuel] is what the member
      functions pass.  The renormalization loops never use it up
      ([enc_renorm_terminates], [dec_renorm_terminates]); the loops of
      the bit tree do not on the inputs of the round-trip theorem. *)

From Stdlib Require Import ZArith Lia Bool.
From Stdlib Require Import Strings.Byte.
From stdpp Require Import base list.

Local Open Scope Z_scope.

(** ** Fixed-width unsigned arithmetic *)

Definition u8 (z : Z) : Z := z mod 2 ^ 8.
Definition u16 (z : Z) : Z := z mod 2 ^ 16.
Definition u32 (z : Z) : Z := z mod 2 ^ 32.
Definition u64 (z : Z) : Z := z mod 2 ^ 64.

(** [uint8_t] elements of a [ByteVec]. *)
Definition Z_of_byte (b : byte) : Z := Z.of_N (Byte.to_N b).

Definition byte_of_Z (z : Z) : byte :=
  match Byte.of_N (Z.to_N (u8 z)) with
  | Some b => b
  | None => Byte.x00
  end.

(** [static int const kProbBits = 12;]
    [static uint32_t const kProbMax = 1u << kProbBits;] *)
Definition kProbBits : Z := 12.
Definition kProbMax : Z := u32 (Z.shiftl 1 kProbBits).

(** ** Outcomes of a call *)

Inductive fault : Type :=
| AssertFailed   (* an [assert] of the source does not hold: the check
                    stops the program with a diagnostic *)
| Undefined      (* an index past the end of a [ByteVec], which the source
                    reads without any check *)
| BadIndex       (* an index outside the array [model], which the source
                    uses without any check *)
| BadShift       (* a shift whose count is negative or not below the width
                    of its operand: the result is undefined *)
| OutOfFuel.     (* the fuel of a loop of this embedding is used up *)

Inductive outcome (A : Type) : Type :=
| Ok (a : A)
| Err (f : fault).
Arguments Ok {A} a.
Arguments Err {A} f.

(** A failure that the code detects itself and reports. *)
Definition reported {A : Type} (o : outcome A) : Prop :=
  o = Err AssertFailed.

Definition is_ok {A : Type} (o : outcome A) : bool :=
  match o with Ok _ => true | Err _ => false end.

(** ** The monad of member functions *)

Definition M (St A : Type) : Type := St -> outcome A * St.

Definition ret {St A : Type} (a : A) : M St A := fun s => (Ok a, s).

Definition bind {St A B : Type} (c : M St A) (k : A -> M St B) : M St B :=
  fun s =>
    match c s with
    | (Ok a, s') => k a s'
    | (Err f, s') => (Err f, s')
    end.

Definition fail {St A : Type} (f : fault) : M St A := fun s => (Err f, s).
Definition get {St : Type} : M St St := fun s => (Ok s, s).
Definition modify {St : Type} (f : St -> St) : M St unit := fun s => (Ok tt, f s).

Declare Scope cpp_scope.
Delimit Scope cpp_scope with cpp.
Notation "'let*' x := c 'in' k" := (bind c (fun x => k))
  (at level 10, x name, c at level 100, k at level 200) : cpp_scope.
Notation "c ;; k" := (bind c (fun _ => k))
  (at level 100, k at level 200, right associativity, only parsing) : cpp_scope.
Local Open Scope cpp_scope.

(** A call on a sub-object: [c] runs on the first (second) component of a
    pair of objects and leaves the other one alone. *)
Definition on_fst {St T A : Type} (c : M St A) : M (St * T) A :=
  fun st =>
    let '(o, s') := c (fst st) in (o, (s', snd st)).

Definition on_snd {St T A : Type} (c : M T A) : M (St * T) A :=
  fun st =>
    let '(o, t') := c (snd st) in (o, (fst st, t')).

(** [for (int i = 0; i < n; ++i) body] with a body that does not use [i]. *)
Fixpoint repeat_ {St : Type} (n : nat) (body : M St unit) : M St unit :=
  match n with
  | O => ret tt
  | S n' => body ;; repeat_ n' body
  end.

(** [x >> n] on a 32-bit operand, an [int] that is not negative or a
    [uint32_t]: the count has to be at least 0 and below 32, the width of
    the operand; with any other count the shift is undefined. *)
Definition shr32 {St : Type} (x n : Z) : M St Z :=
  if (0 <=? n) && (n <? 32) then ret (Z.shiftr x n) else fail BadShift.

(** Fuel handed to every [while] loop. *)
Definition loop_fuel : nat := 64.

(** The subdivision point [x] of [encode] and [decode]:
    [uint32_t x = lo + ((uint64_t(hi - lo) * prob) >> kProbBits);] *)
Definition midpoint (lo hi prob : Z) : Z :=
  u32 (u64 (lo + Z.shiftr (u64 (u32 (hi - lo) * prob)) kProbBits)).

(** The guard of both renormalization loops: [(lo ^ hi) < (1u << 24)]. *)
Definition top_byte_same (lo hi : Z) : bool :=
  Z.lxor lo hi <? u32 (Z.shiftl 1 24).

(** ** BinArithEncoder *)

Module BinArithEncoder.

Record t : Type := mk { lo : Z; hi : Z; bytes : list byte }.

(** [explicit BinArithEncoder(ByteVec &target) : lo(0), hi(~0u), bytes(target)] *)
Definition new (target : list byte) : t :=
  {| lo := 0; hi := u32 (Z.lnot 0); bytes := target |}.

(** [bytes.push_back(lo >> 24); lo <<= 8;] *)
Definition shift_out : M t unit :=
  modify (fun e =>
    {| lo := u32 (Z.shiftl (lo e) 8);
       hi := hi e;
       bytes := bytes e ++ [byte_of_Z (Z.shiftr (lo e) 24)] |}).

(** The destructor: [for (int i = 0; i < 4; ++i) { ... }] *)
Definition finish : M t unit := repeat_ 4 shift_out.

(** [if (bit) hi = x; else lo = x + 1;] *)
Definition subdivide (bit prob : Z) : M t unit :=
  modify (fun e =>
    let x := midpoint (lo e) (hi e) prob in
    if bit =? 0
    then {| lo := u32 (x + 1); hi := hi e; bytes := bytes e |}
    else {| lo := lo e; hi := x; bytes := bytes e |}).

(** The body of the renormalization loop:
    [bytes.push_back(lo >> 24); lo <<= 8; hi = (hi << 8) | 0xff;] *)
Definition renorm_step : M t unit :=
  modify (fun e =>
    {| lo := u32 (Z.shiftl (lo e) 8);
       hi := Z.lor (u32 (Z.shiftl (hi e) 8)) 255;
       bytes := bytes e ++ [byte_of_Z (Z.shiftr (lo e) 24)] |}).

(** [while ((lo ^ hi) < (1u << 24)) { ... }] *)
Fixpoint renorm (fuel : nat) : M t unit :=
  fun e =>
    if top_byte_same (lo e) (hi e) then
      match fuel with
      | O => fail OutOfFuel e
      | S fuel' => (renorm_step ;; renorm fuel') e
      end
    else ret tt e.

(** [void encode(int bit, uint32_t prob)] *)
Definition encode (bit prob : Z) : M t unit :=
  subdivide bit prob ;; renorm loop_fuel.

End BinArithEncoder.

(** ** BinArithDecoder *)

Module BinArithDecoder.

Record t : Type :=
  mk { code : Z; lo : Z; hi : Z; bytes : list byte; read_pos : nat }.

(** [bytes[read_pos++]]: [std::vector::operator[]] does not check its
    index. *)
Definition next_byte : M t Z :=
  fun d =>
    match bytes d !! read_pos d with
    | Some b =>
        (Ok (Z_of_byte b),
         {| code := code d; lo := lo d; hi := hi d; bytes := bytes d;
            read_pos := S (read_pos d) |})
    | None => (Err Undefined, d)
    end.

(** [code = (code << 8) | bytes[read_pos++];] *)
Definition shift_in : M t unit :=
  let* b := next_byte in
  modify (fun d =>
    {| code := Z.lor (u32 (Z.shiftl (code d) 8)) b;
       lo := lo d; hi := hi d; bytes := bytes d; read_pos := read_pos d |}).

(** [explicit BinArithDecoder(ByteVec const &source)
        : lo(0), hi(~0u), bytes(source), read_pos(0)
     { code = 0; for (int i = 0; i < 4; ++i) code = (code << 8) | bytes[read_pos++]; }] *)
Definition new (source : list byte) : outcome unit * t :=
  repeat_ 4 shift_in
    {| code := 0; lo := 0; hi := u32 (Z.lnot 0); bytes := source;
       read_pos := 0%nat |}.

(** [if (code <= x) { hi = x; bit = 1; } else { lo = x + 1; bit = 0; }] *)
Definition subdivide (prob : Z) : M t Z :=
  fun d =>
    let x := midpoint (lo d) (hi d) prob in
    if code d <=? x
    then (Ok 1, {| code := code d; lo := lo d; hi := x;
                   bytes := bytes d; read_pos := read_pos d |})
    else (Ok 0, {| code := code d; lo := u32 (x + 1); hi := hi d;
                   bytes := bytes d; read_pos := read_pos d |}).

(** The body of the renormalization loop:
    [code = (code << 8) | bytes[read_pos++]; lo <<= 8; hi = (hi << 8) | 0xff;] *)
Definition renorm_step : M t unit :=
  shift_in ;;
  modify (fun d =>
    {| code := code d;
       lo := u32 (Z.shiftl (lo d) 8);
       hi := Z.lor (u32 (Z.shiftl (hi d) 8)) 255;
       bytes := bytes d; read_pos := read_pos d |}).

(** [while ((lo ^ hi) < (1u << 24)) { ... }] *)
Fixpoint renorm (fuel : nat) : M t unit :=
  fun d =>
    if top_byte_same (lo d) (hi d) then
      match fuel with
      | O => fail OutOfFuel d
      | S fuel' => (renorm_step ;; renorm fuel') d
      end
    else ret tt d.

(** [int decode(uint32_t prob)] *)
Definition decode (prob : Z) : M t Z :=
  let* bit := subdivide prob in
  renorm loop_fuel ;;
  ret bit.

End BinArithDecoder.

(** ** BinShiftModel *)

Module BinShiftModel.

Record t : Type := mk { prob : Z }.

(** [BinShiftModel() : prob(kProbMax / 2) {}] *)
Definition new : t := {| prob := u16 (kProbMax / 2) |}.

(** [if (bit) prob += (kProbMax - prob) >> Inertia; else prob -= prob >> Inertia;]
    [prob] is a [uint16_t]: the sum is formed in [uint32_t], the difference
    in [int], and both are cut to 16 bits by the assignment.  Both shifts
    have a 32-bit operand and the count [Inertia]: below 0 or above 31 the
    statement is undefined, and [prob] is left as it was. *)
Definition adapt (Inertia : Z) (bit : Z) : M t unit :=
  let* m := get in
  if bit =? 0
  then let* s := shr32 (prob m) Inertia in
       modify (fun _ => {| prob := u16 (prob m - s) |})
  else let* s := shr32 (u32 (kProbMax - prob m)) Inertia in
       modify (fun _ => {| prob := u16 (u32 (prob m + s)) |}).

(** [void encode(BinArithEncoder &enc, int bit) { enc.encode(bit, prob); adapt(bit); }] *)
Definition encode (Inertia : Z) (bit : Z) : M (BinArithEncoder.t * t) unit :=
  let* st := get in
  on_fst (BinArithEncoder.encode bit (prob (snd st))) ;;
  on_snd (adapt Inertia bit).

(** [int decode(BinArithDecoder &dec) { int bit = dec.decode(prob); adapt(bit); return bit; }] *)
Definition decode (Inertia : Z) : M (BinArithDecoder.t * t) Z :=
  let* st := get in
  let* bit := on_fst (BinArithDecoder.decode (prob (snd st))) in
  on_snd (adapt Inertia bit) ;;
  ret bit.

End BinShiftModel.

(** ** BitTreeModel *)

(** What the template [BitTreeModel<BitModel, NumBits>] asks of [BitModel]:
    a default constructor, [encode(enc, bit)] and [decode(dec)]. *)
Class BitModel (T : Type) : Type := {
  bm_new : T;
  bm_encode : Z -> M (BinArithEncoder.t * T) unit;
  bm_decode : M (BinArithDecoder.t * T) Z
}.

#[export] Instance BinShiftModel_BitModel (Inertia : Z) : BitModel BinShiftModel.t := {
  bm_new := BinShiftModel.new;
  bm_encode := BinShiftModel.encode Inertia;
  bm_decode := BinShiftModel.decode Inertia
}.

Module BitTreeModel.

(** [static size_t const kNumSyms = 1 << NumBits;]
    [static size_t const kMSB = kNumSyms / 2;]
    The shift is done in [int]: for [NumBits] from 0 to 30 its value is
    [2 ^ NumBits] and the conversion to [size_t] keeps it.  The definition
    stands for the constant of the source on that range: at 31 the shift
    does not give [2 ^ 31] in [int], and from 32 on its count is outside
    the width of [int]. *)
Definition kNumSyms (NumBits : Z) : Z := Z.shiftl 1 NumBits.
Definition kMSB (NumBits : Z) : Z := kNumSyms NumBits / 2.

Section Tree.
Context {T : Type} `{BitModel T}.
Variable NumBits : Z.

(** [BitModel model[kNumSyms - 1];] *)
Definition new : list T :=
  replicate (Z.to_nat (kNumSyms NumBits - 1)) bm_new.

(** A call [model[i].f(coder, ...)]: the array is indexed without a check;
    an index outside it stops the call with [BadIndex]. *)
Definition at_model {C A : Type} (i : Z) (c : M (C * T) A) : M (C * list T) A :=
  fun st =>
    match snd st !! Z.to_nat i with
    | Some m =>
        let '(o, cm) := c (fst st, m) in
        (o, (fst cm, <[Z.to_nat i := snd cm]> (snd st)))
    | None => (Err BadIndex, st)
    end.

(** [while (ctx < kNumSyms) {
       int bit = (value & kMSB) != 0;
       value += value;
       model[ctx - 1].encode(enc, bit);
       ctx += ctx + bit; }] *)
Fixpoint encode_loop (fuel : nat) (ctx value : Z) : M (BinArithEncoder.t * list T) unit :=
  if ctx <? kNumSyms NumBits then
    match fuel with
    | O => fail OutOfFuel
    | S fuel' =>
        let bit := if Z.land value (kMSB NumBits) =? 0 then 0 else 1 in
        let value' := u64 (value + value) in
        at_model (u64 (ctx - 1)) (bm_encode bit) ;;
        encode_loop fuel' (u64 (ctx + u64 (ctx + bit))) value'
    end
  else ret tt.

(** [void encode(BinArithEncoder &enc, size_t value)] *)
Definition encode (value : Z) : M (BinArithEncoder.t * list T) unit :=
  if value <? kNumSyms NumBits
  then encode_loop loop_fuel 1 value
  else fail AssertFailed.

(** [while (ctx < kNumSyms) ctx += ctx + model[ctx - 1].decode(dec);] *)
Fixpoint decode_loop (fuel : nat) (ctx : Z) : M (BinArithDecoder.t * list T) Z :=
  if ctx <? kNumSyms NumBits then
    match fuel with
    | O => fail OutOfFuel
    | S fuel' =>
        let* bit := at_model (u64 (ctx - 1)) bm_decode in
        decode_loop fuel' (u64 (ctx + u64 (ctx + bit)))
    end
  else ret ctx.

(** [size_t decode(BinArithDecoder &dec)] *)
Definition decode : M (BinArithDecoder.t * list T) Z :=
  let* ctx := decode_loop loop_fuel 1 in
  ret (u64 (ctx - kNumSyms NumBits)).

End Tree.

End BitTreeModel.

(** ** Coding sessions

    The shape of [example_static], [example_dynamic] and
    [example_multisymbol]: an encoder
    over an empty [ByteVec] codes every element of the source and is
    destroyed; a decoder over the coded bytes is asked for as many
    elements as the source had. *)

(** [for (size_t i = 0; i < source.size(); ++i) f(source[i]);] *)
Fixpoint for_each {St A : Type} (source : list A) (f : A -> M St unit) : M St unit :=
  match source with
  | [] => ret tt
  | a :: rest => f a ;; for_each rest f
  end.

(** [for (size_t i = 0; i < n; ++i) decoded.push_back(f());] *)
Fixpoint collect {St A : Type} (n : nat) (f : M St A) : M St (list A) :=
  match n with
  | O => ret []
  | S n' =>
      let* a := f in
      let* rest := collect n' f in
      ret (a :: rest)
  end.

Definition static_encode (prob : Z) (source : list Z) : outcome unit * BinArithEncoder.t :=
  (for_each source (fun bit => BinArithEncoder.encode bit prob) ;;
   BinArithEncoder.finish)
    (BinArithEncoder.new []).

Definition static_decode (prob : Z) (n : nat) (coded : list byte) : outcome (list Z) :=
  match BinArithDecoder.new coded with
  | (Ok _, d) => fst (collect n (BinArithDecoder.decode prob) d)
  | (Err f, _) => Err f
  end.

Definition adaptive_encode (Inertia : Z) (source : list Z)
  : outcome unit * (BinArithEncoder.t * BinShiftModel.t) :=
  (for_each source (BinShiftModel.encode Inertia) ;;
   on_fst BinArithEncoder.finish)
    (BinArithEncoder.new [], BinShiftModel.new).

Definition adaptive_decode (Inertia : Z) (n : nat) (coded : list byte) : outcome (list Z) :=
  match BinArithDecoder.new coded with
  | (Ok _, d) => fst (collect n (BinShiftModel.decode Inertia) (d, BinShiftModel.new))
  | (Err f, _) => Err f
  end.

Definition tree_encode {T : Type} `{BitModel T} (NumBits : Z) (source : list Z)
  : outcome unit * (BinArithEncoder.t * list T) :=
  (for_each source (BitTreeModel.encode NumBits) ;;
   on_fst BinArithEncoder.finish)
    (BinArithEncoder.new [], BitTreeModel.new NumBits).

Definition tree_decode {T : Type} `{BitModel T} (NumBits : Z) (n : nat) (coded : list byte)
  : outcome (list Z) :=
  match BinArithDecoder.new coded with
  | (Ok _, d) => fst (collect n (BitTreeModel.decode NumBits) (d, BitTreeModel.new NumBits))
  | (Err f, _) => Err f
  end.

(** ** Sessions with a probability per bit

    [encode] and [decode] take the probability as an argument of each
    call.  In the sessions below every bit comes with its own
    probability: the encoder is given the pairs, the decoder the
    probabilities in the same order. *)

(** [for (...) decoded.push_back(f(xs[i]));] *)
Fixpoint traverse {St A B : Type} (xs : list A) (f : A -> M St B) : M St (list B) :=
  match xs with
  | [] => ret []
  | x :: rest =>
      let* b := f x in
      let* bs := traverse rest f in
      ret (b :: bs)
  end.

Definition mixed_encode (source : list (Z * Z)) : outcome unit * BinArithEncoder.t :=
  (for_each source (fun bp => BinArithEncoder.encode (fst bp) (snd bp)) ;;
   BinArithEncoder.finish)
    (BinArithEncoder.new []).

Definition mixed_decode (probs : list Z) (coded : list byte)
  : outcome (list Z) * BinArithDecoder.t :=
  match BinArithDecoder.new coded with
  | (Ok _, d) => traverse probs BinArithDecoder.decode d
  | (Err f, d) => (Err f, d)
  end.

(** * Notions used by the properties *)

(** ** Arguments *)

(** A probability the coder can work with: strictly inside (0, kProbMax). *)
Definition valid_prob (prob : Z) : Prop := 0 < prob < kProbMax.

(** Any [uint32_t] at all as the probability argument. *)
Definition any_prob (prob : Z) : Prop := True.

(** A bit as [decode] returns it. *)
Definition is_bit (b : Z) : Prop := b = 0 \/ b = 1.

(** ** Coder states *)

(** The coding interval of an encoder, as two [uint32_t] with [lo <= hi]. *)
Definition enc_inv (e : BinArithEncoder.t) : Prop :=
  0 <= BinArithEncoder.lo e /\
  BinArithEncoder.lo e <= BinArithEncoder.hi e /\
  BinArithEncoder.hi e < 2 ^ 32.

(** The same for a decoder, with [code] between the bounds. *)
Definition dec_inv (d : BinArithDecoder.t) : Prop :=
  0 <= BinArithDecoder.lo d /\
  BinArithDecoder.lo d <= BinArithDecoder.code d /\
  BinArithDecoder.code d <= BinArithDecoder.hi d /\
  BinArithDecoder.hi d < 2 ^ 32.

(** An encoder between two calls: the interval is in order and the loop
    guard is false. *)
Definition enc_normal (e : BinArithEncoder.t) : Prop :=
  enc_inv e /\
  top_byte_same (BinArithEncoder.lo e) (BinArithEncoder.hi e) = false.

(** Encoder states reached from a fresh encoder by calls of [encode] whose
    probability satisfies [P]. *)
Inductive enc_reachable (P : Z -> Prop) : BinArithEncoder.t -> Prop :=
| enc_reach_new target : enc_reachable P (BinArithEncoder.new target)
| enc_reach_encode e bit prob e' :
    enc_reachable P e -> P prob ->
    BinArithEncoder.encode bit prob e = (Ok tt, e') ->
    enc_reachable P e'.

(** Decoder states reached from a constructed decoder by calls of [decode]
    whose probability satisfies [P]. *)
Inductive dec_reachable (P : Z -> Prop) : BinArithDecoder.t -> Prop :=
| dec_reach_new source d :
    BinArithDecoder.new source = (Ok tt, d) -> dec_reachable P d
| dec_reach_decode d prob bit d' :
    dec_reachable P d -> P prob ->
    BinArithDecoder.decode prob d = (Ok bit, d') ->
    dec_reachable P d'.

(** ** The renormalization loop *)

(** After [k] renormalization shifts the low [k] bytes of [lo] are zero
    and those of [hi] are all ones. *)
Definition settled (k : Z) (lo hi : Z) : Prop :=
  0 <= lo < 2 ^ 32 /\ 0 <= hi < 2 ^ 32 /\
  lo mod 2 ^ (8 * k) = 0 /\ hi mod 2 ^ (8 * k) = 2 ^ (8 * k) - 1.

(** How the decoder's renormalization loop can leave: through its guard,
    or at a read past the end of the source. *)
Definition dec_renorm_exit (o : outcome unit) (d : BinArithDecoder.t) : Prop :=
  (o = Ok tt /\
   top_byte_same (BinArithDecoder.lo d) (BinArithDecoder.hi d) = false) \/
  (o = Err Undefined /\
   top_byte_same (BinArithDecoder.lo d) (BinArithDecoder.hi d) = true /\
   (length (BinArithDecoder.bytes d) <= BinArithDecoder.read_pos d)%nat).

(** ** Byte streams *)

(** The value of a byte string read as a big-endian number. *)
Definition be_value (bs : list byte) : Z :=
  fold_left (fun acc b => acc * 256 + Z_of_byte b) bs 0.

(** The four bytes of a [uint32_t], most significant first. *)
Definition be_bytes32 (z : Z) : list byte :=
  [byte_of_Z (Z.shiftr z 24); byte_of_Z (Z.shiftr z 16);
   byte_of_Z (Z.shiftr z 8); byte_of_Z z].

(** The value of the first four bytes of a stream.  This is what the
    decoder holds in [code] when the stream is what it has not yet
    shifted out. *)
Definition window (R : list byte) : Z := be_value (take 4 R).

(** The stream [B] continues the output of [e]: it starts with the bytes
    [e] has written, and the four bytes that follow them, as a number, lie
    in the interval of [e]. *)
Definition continues (e : BinArithEncoder.t) (B : list byte) : Prop :=
  exists R,
    B = BinArithEncoder.bytes e ++ R /\ (4 <= length R)%nat /\
    BinArithEncoder.lo e <= window R <= BinArithEncoder.hi e.

(** The decoder [d], reading [B], is where the encoder [e] was: same
    interval, cursor four bytes ahead of what [e] had written, and [code]
    the four bytes in between. *)
Definition in_step (e : BinArithEncoder.t) (d : BinArithDecoder.t) (B : list byte) : Prop :=
  BinArithDecoder.bytes d = B /\
  BinArithDecoder.read_pos d = (length (BinArithEncoder.bytes e) + 4)%nat /\
  BinArithDecoder.lo d = BinArithEncoder.lo e /\
  BinArithDecoder.hi d = BinArithEncoder.hi e /\
  exists R,
    B = BinArithEncoder.bytes e ++ R /\ (4 <= length R)%nat /\
    BinArithDecoder.code d = window R.

(** ** Decoding mirrors encoding *)

(** A decoding computation [dp] mirrors an encoding computation [ep], with
    result [a].  The two run on states that hold an encoder ([pe]) and a
    decoder ([pd]) next to whatever else the computations use; [InvE] is
    what [ep] needs of its state and [Rm] relates the two sides.  Then:
    [ep] succeeds and keeps [InvE]; a stream that continues the encoder
    after [ep] continued it before; and on such a stream a decoder in step
    with the encoder before [ep] runs [dp] without a fault, returns [a],
    and is in step with the encoder after [ep]. *)
Definition mirrors {SE SD A : Type}
  (pe : SE -> BinArithEncoder.t) (pd : SD -> BinArithDecoder.t)
  (InvE : SE -> Prop) (Rm : SE -> SD -> Prop)
  (ep : M SE unit) (dp : M SD A) (a : A) : Prop :=
  forall se,
    InvE se -> enc_normal (pe se) ->
    exists se',
      ep se = (Ok tt, se') /\ InvE se' /\ enc_normal (pe se') /\
      (forall B, continues (pe se') B -> continues (pe se) B) /\
      (forall sd B,
         Rm se sd -> in_step (pe se) (pd sd) B -> continues (pe se') B ->
         exists sd',
           dp sd = (Ok a, sd') /\ Rm se' sd' /\ in_step (pe se') (pd sd') B).

(** What the tree needs of its bit models: an invariant [InvT] that holds
    of a fresh model and under which decoding a bit mirrors encoding it,
    the two sides ending with the same model. *)
Definition lawful_model {T : Type} `{BitModel T} (InvT : T -> Prop) : Prop :=
  InvT bm_new /\
  forall bit, is_bit bit ->
    mirrors fst fst (fun s => InvT (snd s)) (fun s s' => snd s = snd s')
      (bm_encode bit) bm_decode bit.

(** The model array of a tree: every model satisfies [InvT] and there are
    [kNumSyms - 1] of them. *)
Definition tree_inv {T C : Type} (InvT : T -> Prop) (NumBits : Z) (s : C * list T) : Prop :=
  Forall InvT (snd s) /\ length (snd s) = Z.to_nat (2 ^ NumBits - 1).

(** * Properties *)

(** ** Arithmetic of the fixed-width types *)

Lemma u32_range z : 0 <= u32 z < 2 ^ 32.
Proof. unfold u32. apply Z.mod_pos_bound. lia. Qed.

Lemma u32_small z : 0 <= z < 2 ^ 32 -> u32 z = z.
Proof. unfold u32. intros Hz. apply Z.mod_small. lia. Qed.

Lemma u64_small z : 0 <= z < 2 ^ 64 -> u64 z = z.
Proof. unfold u64. intros Hz. apply Z.mod_small. lia. Qed.

Lemma u16_small z : 0 <= z < 2 ^ 16 -> u16 z = z.
Proof. unfold u16. intros Hz. apply Z.mod_small. lia. Qed.

Lemma kProbMax_eq : kProbMax = 4096.
Proof. reflexivity. Qed.

Lemma guard_bound_eq : u32 (Z.shiftl 1 24) = 2 ^ 24.
Proof. reflexivity. Qed.

Lemma all_ones_eq : u32 (Z.lnot 0) = 2 ^ 32 - 1.
Proof. reflexivity. Qed.

Lemma Z_of_byte_range b : 0 <= Z_of_byte b < 256.
Proof.
  unfold Z_of_byte. pose proof (Byte.to_N_bounded b). lia.
Qed.

Lemma Z_of_byte_of_Z z : Z_of_byte (byte_of_Z z) = u8 z.
Proof.
  unfold byte_of_Z, Z_of_byte.
  assert (Hr : 0 <= u8 z < 256) by (unfold u8; apply Z.mod_pos_bound; lia).
  destruct (Byte.of_N (Z.to_N (u8 z))) as [b|] eqn:E.
  - apply Byte.to_of_N in E. rewrite E. lia.
  - apply Byte.of_N_None_iff in E. lia.
Qed.

Lemma byte_of_Z_of_byte b : byte_of_Z (Z_of_byte b) = b.
Proof.
  unfold byte_of_Z, Z_of_byte.
  pose proof (Byte.to_N_bounded b) as Hb.
  replace (u8 (Z.of_N (Byte.to_N b))) with (Z.of_N (Byte.to_N b))
    by (unfold u8; rewrite Z.mod_small; lia).
  rewrite N2Z.id, Byte.of_to_N. reflexivity.
Qed.

Lemma land_low_zero a b : 0 <= b < 256 -> Z.land (a * 256) b = 0.
Proof.
  intros Hb. apply Z.bits_inj'. intros n Hn.
  rewrite Z.land_spec, Z.bits_0.
  destruct (Z.lt_ge_cases n 8) as [Hlt|Hge].
  - change 256 with (2 ^ 8). rewrite Z.mul_pow2_bits_low by lia. reflexivity.
  - assert (Hz : Z.testbit b n = false).
    { destruct (Z.eq_dec b 0) as [->|Hne]; [apply Z.bits_0|].
      apply Z.bits_above_log2; [lia|].
      assert (Z.log2 b < 8) by (apply Z.log2_lt_pow2; lia). lia. }
    rewrite Hz. apply andb_false_r.
Qed.

Lemma lor_low a b : 0 <= b < 256 -> Z.lor (a * 256) b = a * 256 + b.
Proof.
  intros Hb. symmetry. apply Z.add_nocarry_lor, land_low_zero, Hb.
Qed.

Lemma u32_mul_256 z : u32 (z * 256) = z mod 2 ^ 24 * 256.
Proof.
  unfold u32. change (2 ^ 32) with (2 ^ 24 * 256).
  rewrite Z.mul_mod_distr_r by lia. reflexivity.
Qed.

(** [z << 8] in [uint32_t]. *)
Lemma shl8_eq z : u32 (Z.shiftl z 8) = z mod 2 ^ 24 * 256.
Proof.
  rewrite Z.shiftl_mul_pow2 by lia. change (2 ^ 8) with 256.
  apply u32_mul_256.
Qed.

(** [(z << 8) | b] in [uint32_t], for a byte [b]. *)
Lemma shl8_lor_eq z b :
  0 <= b < 256 -> Z.lor (u32 (Z.shiftl z 8)) b = z mod 2 ^ 24 * 256 + b.
Proof.
  intros Hb. rewrite shl8_eq. apply lor_low, Hb.
Qed.

(** [z >> 24] for a [uint32_t]. *)
Lemma shr24_eq z : Z.shiftr z 24 = z / 2 ^ 24.
Proof. apply Z.shiftr_div_pow2. lia. Qed.

(** The loop guard compares the top bytes. *)
Lemma top_byte_same_iff lo hi :
  0 <= lo -> 0 <= hi ->
  top_byte_same lo hi = true <-> lo / 2 ^ 24 = hi / 2 ^ 24.
Proof.
  intros Hlo Hhi. unfold top_byte_same. rewrite guard_bound_eq, Z.ltb_lt.
  assert (Hx : 0 <= Z.lxor lo hi) by (apply Z.lxor_nonneg; tauto).
  rewrite <- !shr24_eq, <- Z.lxor_eq_0_iff, <- Z.shiftr_lxor, shr24_eq.
  split; intros H.
  - apply Z.div_small. lia.
  - apply Z.div_small_iff in H; lia.
Qed.

(** The subdivision point stays inside the interval. *)
Lemma midpoint_eq lo hi prob :
  0 <= lo <= hi -> hi < 2 ^ 32 -> 0 <= prob <= 4096 ->
  midpoint lo hi prob = lo + (hi - lo) * prob / 4096.
Proof.
  intros Hlh Hhi Hp. unfold midpoint, kProbBits.
  rewrite (u32_small (hi - lo)) by lia.
  assert (Hprod : 0 <= (hi - lo) * prob <= (hi - lo) * 4096) by nia.
  rewrite (u64_small ((hi - lo) * prob)) by lia.
  rewrite Z.shiftr_div_pow2 by lia. change (2 ^ 12) with 4096.
  assert (Hq : 0 <= (hi - lo) * prob / 4096 <= hi - lo).
  { split; [apply Z.div_pos; lia|].
    apply Z.div_le_upper_bound; lia. }
  rewrite u64_small by lia. apply u32_small. lia.
Qed.

Lemma midpoint_bounds lo hi prob :
  0 <= lo <= hi -> hi < 2 ^ 32 -> 0 <= prob <= 4096 ->
  lo <= midpoint lo hi prob <= hi.
Proof.
  intros Hlh Hhi Hp. rewrite midpoint_eq by assumption.
  assert (0 <= (hi - lo) * prob / 4096) by (apply Z.div_pos; nia).
  assert ((hi - lo) * prob / 4096 <= hi - lo)
    by (apply Z.div_le_upper_bound; nia).
  lia.
Qed.

Lemma midpoint_below_hi lo hi prob :
  0 <= lo < hi -> hi < 2 ^ 32 -> 0 <= prob < 4096 ->
  midpoint lo hi prob < hi.
Proof.
  intros Hlh Hhi Hp. rewrite midpoint_eq by lia.
  assert ((hi - lo) * prob / 4096 < hi - lo)
    by (apply Z.div_lt_upper_bound; nia).
  lia.
Qed.

Lemma midpoint_range lo hi prob : 0 <= midpoint lo hi prob < 2 ^ 32.
Proof. apply u32_range. Qed.

(** ** The renormalization loops stop *)

Lemma mod_mod_pow2 z j k : 0 <= j <= k -> (z mod 2 ^ k) mod 2 ^ j = z mod 2 ^ j.
Proof.
  intros Hjk. apply Z.mod_mod_divide.
  exists (2 ^ (k - j)). rewrite <- Z.pow_add_r by lia. f_equal. lia.
Qed.

Lemma settled_first lo hi :
  settled 1 (u32 (Z.shiftl lo 8)) (Z.lor (u32 (Z.shiftl hi 8)) 255).
Proof.
  rewrite shl8_eq, shl8_lor_eq by lia. unfold settled.
  change (2 ^ (8 * 1)) with 256.
  pose proof (Z.mod_pos_bound lo (2 ^ 24) ltac:(lia)).
  pose proof (Z.mod_pos_bound hi (2 ^ 24) ltac:(lia)).
  repeat split; try lia.
  - apply Z.mod_mul. lia.
  - rewrite Z.add_comm, Z.mod_add by lia. reflexivity.
Qed.

Lemma settled_next k lo hi :
  1 <= k <= 3 -> settled k lo hi ->
  settled (k + 1) (u32 (Z.shiftl lo 8)) (Z.lor (u32 (Z.shiftl hi 8)) 255).
Proof.
  intros Hk (Hlo & Hhi & Hl & Hh).
  rewrite shl8_eq, shl8_lor_eq by lia. unfold settled.
  pose proof (Z.mod_pos_bound lo (2 ^ 24) ltac:(lia)).
  pose proof (Z.mod_pos_bound hi (2 ^ 24) ltac:(lia)).
  replace (8 * (k + 1)) with (8 * k + 8) by lia.
  rewrite Z.pow_add_r by lia. change (2 ^ 8) with 256.
  assert (Hpos : 0 < 2 ^ (8 * k)) by (apply Z.pow_pos_nonneg; lia).
  repeat split; try lia.
  - rewrite Z.mul_mod_distr_r by lia.
    rewrite mod_mod_pow2 by lia. rewrite Hl. reflexivity.
  - rewrite (Z.mul_comm (2 ^ (8 * k)) 256), Z.rem_mul_r by lia.
    rewrite (Z.add_comm (hi mod 2 ^ 24 * 256) 255).
    rewrite Z.mod_add, Z.div_add by lia.
    change (255 mod 256) with 255. change (255 / 256) with 0.
    rewrite Z.add_0_l, mod_mod_pow2 by lia. rewrite Hh. lia.
Qed.

Lemma settled_last lo hi : settled 4 lo hi -> top_byte_same lo hi = false.
Proof.
  intros (Hlo & Hhi & Hl & Hh). change (2 ^ (8 * 4)) with (2 ^ 32) in *.
  rewrite Z.mod_small in Hl, Hh by lia. subst lo.
  replace hi with (2 ^ 32 - 1) by lia. reflexivity.
Qed.

Lemma enc_renorm_done fuel e :
  top_byte_same (BinArithEncoder.lo e) (BinArithEncoder.hi e) = false ->
  BinArithEncoder.renorm fuel e = (Ok tt, e).
Proof. intros H. destruct fuel; simpl; rewrite H; reflexivity. Qed.

Lemma enc_renorm_more fuel e :
  top_byte_same (BinArithEncoder.lo e) (BinArithEncoder.hi e) = true ->
  BinArithEncoder.renorm (S fuel) e =
  BinArithEncoder.renorm fuel (snd (BinArithEncoder.renorm_step e)).
Proof. intros H. simpl. rewrite H. reflexivity. Qed.

Lemma enc_renorm_stuck e :
  top_byte_same (BinArithEncoder.lo e) (BinArithEncoder.hi e) = true ->
  BinArithEncoder.renorm 0 e = (Err OutOfFuel, e).
Proof. intros H. simpl. rewrite H. reflexivity. Qed.

Lemma enc_renorm_settled m : forall k fuel e,
  1 <= k -> k + Z.of_nat m = 4 -> (m <= fuel)%nat ->
  settled k (BinArithEncoder.lo e) (BinArithEncoder.hi e) ->
  exists e' out,
    BinArithEncoder.renorm fuel e = (Ok tt, e') /\
    top_byte_same (BinArithEncoder.lo e') (BinArithEncoder.hi e') = false /\
    BinArithEncoder.bytes e' = BinArithEncoder.bytes e ++ out /\
    (length out <= m)%nat.
Proof.
  induction m as [|m IH]; intros k fuel e Hk Hkm Hfuel Hs.
  - replace k with 4 in Hs by lia. apply settled_last in Hs.
    exists e, []. rewrite enc_renorm_done, app_nil_r by assumption. auto.
  - destruct (top_byte_same (BinArithEncoder.lo e) (BinArithEncoder.hi e)) eqn:G.
    + destruct fuel as [|fuel]; [lia|].
      rewrite enc_renorm_more by assumption.
      destruct (IH (k + 1) fuel (snd (BinArithEncoder.renorm_step e)))
        as (e' & out & Hrun & Hg & Hout & Hlen); [lia | lia | lia | |].
      { simpl. apply settled_next; [lia | assumption]. }
      exists e', (byte_of_Z (Z.shiftr (BinArithEncoder.lo e) 24) :: out).
      repeat split; [assumption | assumption | | simpl; lia].
      rewrite Hout. simpl. rewrite <- app_assoc. reflexivity.
    + exists e, []. rewrite enc_renorm_done, app_nil_r by assumption.
      repeat split; [assumption | simpl; lia].
Qed.

(** From any state at all, the encoder's loop leaves after at most four
    rounds, each of which appends one byte. *)
Lemma enc_renorm_terminates fuel e :
  (4 <= fuel)%nat ->
  exists e' out,
    BinArithEncoder.renorm fuel e = (Ok tt, e') /\
    top_byte_same (BinArithEncoder.lo e') (BinArithEncoder.hi e') = false /\
    BinArithEncoder.bytes e' = BinArithEncoder.bytes e ++ out /\
    (length out <= 4)%nat.
Proof.
  intros Hfuel.
  destruct (top_byte_same (BinArithEncoder.lo e) (BinArithEncoder.hi e)) eqn:G.
  - destruct fuel as [|fuel]; [lia|].
    rewrite enc_renorm_more by assumption.
    destruct (enc_renorm_settled 3 1 fuel (snd (BinArithEncoder.renorm_step e)))
      as (e' & out & Hrun & Hg & Hout & Hlen); [lia | lia | lia | |].
    { simpl. apply settled_first. }
    exists e', (byte_of_Z (Z.shiftr (BinArithEncoder.lo e) 24) :: out).
    repeat split; [assumption | assumption | | simpl; lia].
    rewrite Hout. simpl. rewrite <- app_assoc. reflexivity.
  - exists e, []. rewrite enc_renorm_done, app_nil_r by assumption.
    repeat split; [assumption | simpl; lia].
Qed.

Lemma dec_renorm_done fuel d :
  top_byte_same (BinArithDecoder.lo d) (BinArithDecoder.hi d) = false ->
  BinArithDecoder.renorm fuel d = (Ok tt, d).
Proof. intros H. destruct fuel; simpl; rewrite H; reflexivity. Qed.

Lemma dec_renorm_stuck d :
  top_byte_same (BinArithDecoder.lo d) (BinArithDecoder.hi d) = true ->
  BinArithDecoder.renorm 0 d = (Err OutOfFuel, d).
Proof. intros H. simpl. rewrite H. reflexivity. Qed.

Lemma dec_step_some d b :
  BinArithDecoder.bytes d !! BinArithDecoder.read_pos d = Some b ->
  BinArithDecoder.renorm_step d =
    (Ok tt,
     {| BinArithDecoder.code :=
          Z.lor (u32 (Z.shiftl (BinArithDecoder.code d) 8)) (Z_of_byte b);
        BinArithDecoder.lo := u32 (Z.shiftl (BinArithDecoder.lo d) 8);
        BinArithDecoder.hi := Z.lor (u32 (Z.shiftl (BinArithDecoder.hi d) 8)) 255;
        BinArithDecoder.bytes := BinArithDecoder.bytes d;
        BinArithDecoder.read_pos := S (BinArithDecoder.read_pos d) |}).
Proof.
  intros Hb.
  unfold BinArithDecoder.renorm_step, BinArithDecoder.shift_in,
    BinArithDecoder.next_byte, bind, modify.
  rewrite Hb. reflexivity.
Qed.

Lemma dec_step_none d :
  BinArithDecoder.bytes d !! BinArithDecoder.read_pos d = None ->
  BinArithDecoder.renorm_step d = (Err Undefined, d).
Proof.
  intros Hb.
  unfold BinArithDecoder.renorm_step, BinArithDecoder.shift_in,
    BinArithDecoder.next_byte, bind, modify.
  rewrite Hb. reflexivity.
Qed.

Lemma dec_renorm_some fuel d b :
  top_byte_same (BinArithDecoder.lo d) (BinArithDecoder.hi d) = true ->
  BinArithDecoder.bytes d !! BinArithDecoder.read_pos d = Some b ->
  BinArithDecoder.renorm (S fuel) d =
  BinArithDecoder.renorm fuel (snd (BinArithDecoder.renorm_step d)).
Proof.
  intros G Hb. simpl. rewrite G. unfold bind at 1.
  rewrite (dec_step_some d b Hb). reflexivity.
Qed.

Lemma dec_renorm_none fuel d :
  top_byte_same (BinArithDecoder.lo d) (BinArithDecoder.hi d) = true ->
  BinArithDecoder.bytes d !! BinArithDecoder.read_pos d = None ->
  BinArithDecoder.renorm (S fuel) d = (Err Undefined, d).
Proof.
  intros G Hb. simpl. rewrite G. unfold bind at 1.
  rewrite (dec_step_none d Hb). reflexivity.
Qed.

Lemma dec_renorm_settled m : forall k fuel d,
  1 <= k -> k + Z.of_nat m = 4 -> (m <= fuel)%nat ->
  settled k (BinArithDecoder.lo d) (BinArithDecoder.hi d) ->
  exists o d',
    BinArithDecoder.renorm fuel d = (o, d') /\
    dec_renorm_exit o d' /\
    BinArithDecoder.bytes d' = BinArithDecoder.bytes d /\
    (BinArithDecoder.read_pos d <= BinArithDecoder.read_pos d'
       <= BinArithDecoder.read_pos d + m)%nat /\
    (o = Ok tt \/
     (BinArithDecoder.read_pos d' < BinArithDecoder.read_pos d + m)%nat).
Proof.
  induction m as [|m IH]; intros k fuel d Hk Hkm Hfuel Hs.
  - replace k with 4 in Hs by lia. apply settled_last in Hs.
    exists (Ok tt), d. rewrite dec_renorm_done by assumption.
    unfold dec_renorm_exit. repeat split; auto; lia.
  - destruct (top_byte_same (BinArithDecoder.lo d) (BinArithDecoder.hi d)) eqn:G.
    + destruct fuel as [|fuel]; [lia|].
      destruct (BinArithDecoder.bytes d !! BinArithDecoder.read_pos d) as [b|] eqn:Hb.
      * rewrite (dec_renorm_some fuel d b) by assumption.
        rewrite (dec_step_some d b Hb). simpl.
        match goal with |- context [BinArithDecoder.renorm fuel ?x] =>
          destruct (IH (k + 1) fuel x)
            as (o & d' & Hrun & Hex & Hbytes & Hpos & Hlast)
        end; [lia | lia | lia | |].
        { simpl. apply settled_next; [lia | assumption]. }
        exists o, d'. simpl in Hbytes, Hpos, Hlast.
        split; [assumption|]. split; [assumption|]. split; [assumption|].
        split; [lia|]. destruct Hlast as [->|Hlt]; [left; reflexivity | right; lia].
      * rewrite dec_renorm_none by assumption.
        exists (Err Undefined), d. unfold dec_renorm_exit.
        apply lookup_ge_None in Hb.
        split; [reflexivity|]. split; [right; auto|]. split; [reflexivity|].
        split; [lia | right; lia].
    + exists (Ok tt), d. rewrite dec_renorm_done by assumption.
      unfold dec_renorm_exit. repeat split; auto; lia.
Qed.

(** The decoder's loop likewise: it leaves after at most four rounds, or
    stops at a read past the end of the source; in that case fewer than
    four bytes were left to read. *)
Lemma dec_renorm_terminates fuel d :
  (4 <= fuel)%nat ->
  exists o d',
    BinArithDecoder.renorm fuel d = (o, d') /\
    dec_renorm_exit o d' /\
    BinArithDecoder.bytes d' = BinArithDecoder.bytes d /\
    (BinArithDecoder.read_pos d <= BinArithDecoder.read_pos d'
       <= BinArithDecoder.read_pos d + 4)%nat /\
    (o = Ok tt \/
     (BinArithDecoder.read_pos d' < BinArithDecoder.read_pos d + 4)%nat).
Proof.
  intros Hfuel.
  destruct (top_byte_same (BinArithDecoder.lo d) (BinArithDecoder.hi d)) eqn:G.
  - destruct fuel as [|fuel]; [lia|].
    destruct (BinArithDecoder.bytes d !! BinArithDecoder.read_pos d) as [b|] eqn:Hb.
    + rewrite (dec_renorm_some fuel d b) by assumption.
      rewrite (dec_step_some d b Hb). simpl.
      match goal with |- context [BinArithDecoder.renorm fuel ?x] =>
        destruct (dec_renorm_settled 3 1 fuel x)
          as (o & d' & Hrun & Hex & Hbytes & Hpos & Hlast)
      end; [lia | lia | lia | |].
      { simpl. apply settled_first. }
      exists o, d'. simpl in Hbytes, Hpos, Hlast.
      split; [assumption|]. split; [assumption|]. split; [assumption|].
      split; [lia|]. destruct Hlast as [->|Hlt]; [left; reflexivity | right; lia].
    + rewrite dec_renorm_none by assumption.
      exists (Err Undefined), d. unfold dec_renorm_exit.
      apply lookup_ge_None in Hb.
      split; [reflexivity|]. split; [right; auto|]. split; [reflexivity|].
      split; [lia | right; lia].
  - exists (Ok tt), d. rewrite dec_renorm_done by assumption.
    unfold dec_renorm_exit. repeat split; auto; lia.
Qed.

Lemma loop_fuel_enough : exists n, loop_fuel = (4 + n)%nat.
Proof. exists 60%nat. reflexivity. Qed.

Lemma enc_encode_eq bit prob e :
  BinArithEncoder.encode bit prob e =
  BinArithEncoder.renorm loop_fuel (snd (BinArithEncoder.subdivide bit prob e)).
Proof. reflexivity. Qed.

Lemma dec_decode_eq prob d :
  BinArithDecoder.decode prob d =
  match BinArithDecoder.subdivide prob d with
  | (Ok bit, d1) =>
      match BinArithDecoder.renorm loop_fuel d1 with
      | (Ok _, d') => (Ok bit, d')
      | (Err f, d') => (Err f, d')
      end
  | (Err f, d1) => (Err f, d1)
  end.
Proof.
  unfold BinArithDecoder.decode, bind, ret.
  destruct (BinArithDecoder.subdivide prob d) as [[bit|f] d1]; reflexivity.
Qed.

Lemma dec_subdivide_ok prob d :
  exists bit, fst (BinArithDecoder.subdivide prob d) = Ok bit /\ (bit = 0 \/ bit = 1).
Proof.
  unfold BinArithDecoder.subdivide.
  destruct (BinArithDecoder.code d <=? _); simpl; eauto.
Qed.

Lemma dec_subdivide_frame prob d :
  BinArithDecoder.bytes (snd (BinArithDecoder.subdivide prob d)) = BinArithDecoder.bytes d /\
  BinArithDecoder.read_pos (snd (BinArithDecoder.subdivide prob d)) = BinArithDecoder.read_pos d /\
  BinArithDecoder.code (snd (BinArithDecoder.subdivide prob d)) = BinArithDecoder.code d.
Proof.
  unfold BinArithDecoder.subdivide.
  destruct (BinArithDecoder.code d <=? _); simpl; auto.
Qed.

(** C10.  The renormalization loop of [BinArithEncoder::encode] and of
    [BinArithDecoder::decode] runs at most four rounds before its guard
    [(lo ^ hi) < (1u << 24)] is false, from every state (in particular
    from every state with [lo <= hi]) and whatever fuel of four or more
    it is given.  So a call of [encode] returns, having appended at most
    four bytes, and a call of [decode] never runs out of fuel and moves
    the read cursor by at most four bytes. *)
Theorem renorm_at_most_four_rounds
  (n : nat) (e : BinArithEncoder.t) (d : BinArithDecoder.t) (bit prob : Z) :
  (exists e' out,
     BinArithEncoder.renorm (4 + n) e = (Ok tt, e') /\
     top_byte_same (BinArithEncoder.lo e') (BinArithEncoder.hi e') = false /\
     BinArithEncoder.bytes e' = BinArithEncoder.bytes e ++ out /\
     (length out <= 4)%nat) /\
  (exists e' out,
     BinArithEncoder.encode bit prob e = (Ok tt, e') /\
     top_byte_same (BinArithEncoder.lo e') (BinArithEncoder.hi e') = false /\
     BinArithEncoder.bytes e' = BinArithEncoder.bytes e ++ out /\
     (length out <= 4)%nat) /\
  (exists o d',
     BinArithDecoder.renorm (4 + n) d = (o, d') /\
     dec_renorm_exit o d' /\
     BinArithDecoder.bytes d' = BinArithDecoder.bytes d /\
     (BinArithDecoder.read_pos d <= BinArithDecoder.read_pos d'
        <= BinArithDecoder.read_pos d + 4)%nat) /\
  (exists o d',
     BinArithDecoder.decode prob d = (o, d') /\
     o <> Err OutOfFuel /\
     (is_ok o = true ->
      top_byte_same (BinArithDecoder.lo d') (BinArithDecoder.hi d') = false) /\
     BinArithDecoder.bytes d' = BinArithDecoder.bytes d /\
     (BinArithDecoder.read_pos d <= BinArithDecoder.read_pos d'
        <= BinArithDecoder.read_pos d + 4)%nat).
Proof.
  destruct loop_fuel_enough as [k Hk].
  split; [apply enc_renorm_terminates; lia|].
  split.
  { rewrite enc_encode_eq, Hk.
    destruct (enc_renorm_terminates (4 + k) (snd (BinArithEncoder.subdivide bit prob e)))
      as (e' & out & Hrun & Hg & Hout & Hlen); [lia|].
    exists e', out. repeat split; try assumption.
    rewrite Hout. unfold BinArithEncoder.subdivide, modify. simpl.
    destruct (bit =? 0); reflexivity. }
  split.
  { destruct (dec_renorm_terminates (4 + n) d)
      as (o & d' & Hrun & Hex & Hbytes & Hpos & _); [lia|].
    exists o, d'. auto. }
  rewrite dec_decode_eq, Hk.
  destruct (dec_subdivide_ok prob d) as (b & Hb & _).
  destruct (dec_subdivide_frame prob d) as (Hbytes & Hpos & _).
  destruct (BinArithDecoder.subdivide prob d) as [o1 d1].
  simpl in Hb, Hbytes, Hpos. subst o1. cbv beta iota.
  destruct (dec_renorm_terminates (4 + k) d1)
    as (o & d' & Hrun & Hex & Hbytes' & Hpos' & _); [lia|].
  rewrite Hrun.
  destruct Hex as [[-> Hg] | (-> & Hg & Hlen)].
  - exists (Ok b), d'. repeat split; try congruence; lia.
  - exists (Err Undefined), d'. repeat split; try congruence; try lia.
    simpl. discriminate.
Qed.

(** ** The interval never inverts *)

Lemma same_top_order a b :
  0 <= a <= b -> a / 2 ^ 24 = b / 2 ^ 24 -> a mod 2 ^ 24 <= b mod 2 ^ 24.
Proof.
  intros Hab Htop.
  pose proof (Z.div_mod a (2 ^ 24) ltac:(lia)) as Ha.
  pose proof (Z.div_mod b (2 ^ 24) ltac:(lia)) as Hb.
  rewrite Htop in Ha. lia.
Qed.

Lemma same_top_between a c b :
  0 <= a <= c -> c <= b -> a / 2 ^ 24 = b / 2 ^ 24 -> c / 2 ^ 24 = a / 2 ^ 24.
Proof.
  intros Hac Hcb Htop.
  pose proof (Z.div_le_mono a c (2 ^ 24) ltac:(lia) ltac:(lia)).
  pose proof (Z.div_le_mono c b (2 ^ 24) ltac:(lia) ltac:(lia)).
  lia.
Qed.

Lemma not_same_top_lt lo hi :
  lo <= hi -> top_byte_same lo hi = false -> lo < hi.
Proof.
  intros Hle G. destruct (Z.eq_dec lo hi) as [->|Hne]; [|lia].
  unfold top_byte_same in G. rewrite Z.lxor_nilpotent in G. discriminate.
Qed.

Lemma enc_step_inv e :
  enc_inv e ->
  top_byte_same (BinArithEncoder.lo e) (BinArithEncoder.hi e) = true ->
  enc_inv (snd (BinArithEncoder.renorm_step e)).
Proof.
  intros (H0 & Hle & Hhi) G. apply top_byte_same_iff in G; [|lia|lia].
  unfold enc_inv. simpl. rewrite shl8_eq, shl8_lor_eq by lia.
  pose proof (same_top_order _ _ (conj H0 Hle) G).
  pose proof (Z.mod_pos_bound (BinArithEncoder.lo e) (2 ^ 24) ltac:(lia)).
  pose proof (Z.mod_pos_bound (BinArithEncoder.hi e) (2 ^ 24) ltac:(lia)).
  lia.
Qed.

Lemma enc_renorm_inv fuel : forall e,
  enc_inv e -> enc_inv (snd (BinArithEncoder.renorm fuel e)).
Proof.
  induction fuel as [|fuel IH]; intros e He.
  - destruct (top_byte_same (BinArithEncoder.lo e) (BinArithEncoder.hi e)) eqn:G.
    + rewrite enc_renorm_stuck by assumption. assumption.
    + rewrite enc_renorm_done by assumption. assumption.
  - destruct (top_byte_same (BinArithEncoder.lo e) (BinArithEncoder.hi e)) eqn:G.
    + rewrite enc_renorm_more by assumption. apply IH, enc_step_inv; assumption.
    + rewrite enc_renorm_done by assumption. assumption.
Qed.

Lemma valid_prob_bounds prob : valid_prob prob -> 0 < prob < 4096.
Proof. unfold valid_prob. rewrite kProbMax_eq. auto. Qed.

Lemma enc_subdivide_inv bit prob e :
  enc_inv e ->
  top_byte_same (BinArithEncoder.lo e) (BinArithEncoder.hi e) = false ->
  valid_prob prob ->
  enc_inv (snd (BinArithEncoder.subdivide bit prob e)) /\
  (bit = 0 ->
   BinArithEncoder.lo (snd (BinArithEncoder.subdivide bit prob e)) =
     midpoint (BinArithEncoder.lo e) (BinArithEncoder.hi e) prob + 1).
Proof.
  intros (H0 & Hle & Hhi) G Hp. apply valid_prob_bounds in Hp.
  pose proof (not_same_top_lt _ _ Hle G) as Hlt.
  pose proof (midpoint_bounds (BinArithEncoder.lo e) (BinArithEncoder.hi e) prob
                ltac:(lia) ltac:(lia) ltac:(lia)).
  pose proof (midpoint_below_hi (BinArithEncoder.lo e) (BinArithEncoder.hi e) prob
                ltac:(lia) ltac:(lia) ltac:(lia)).
  unfold enc_inv, BinArithEncoder.subdivide, modify. simpl.
  destruct (bit =? 0) eqn:Hb; simpl.
  - rewrite u32_small by lia. split; [lia | reflexivity].
  - split; [lia|]. intros ->. discriminate.
Qed.

Lemma enc_new_normal target :
  enc_inv (BinArithEncoder.new target) /\
  top_byte_same (BinArithEncoder.lo (BinArithEncoder.new target))
                (BinArithEncoder.hi (BinArithEncoder.new target)) = false.
Proof.
  unfold enc_inv. simpl. rewrite all_ones_eq. split; [lia | reflexivity].
Qed.

Lemma enc_encode_normal bit prob e e' :
  enc_inv e ->
  top_byte_same (BinArithEncoder.lo e) (BinArithEncoder.hi e) = false ->
  valid_prob prob ->
  BinArithEncoder.encode bit prob e = (Ok tt, e') ->
  enc_inv e' /\
  top_byte_same (BinArithEncoder.lo e') (BinArithEncoder.hi e') = false.
Proof.
  intros He G Hp Hrun.
  destruct (enc_subdivide_inv bit prob e He G Hp) as [H1 _].
  rewrite enc_encode_eq in Hrun.
  pose proof (enc_renorm_inv loop_fuel _ H1) as H2. rewrite Hrun in H2.
  split; [exact H2|].
  destruct loop_fuel_enough as [k Hk]. rewrite Hk in Hrun.
  destruct (enc_renorm_terminates (4 + k) (snd (BinArithEncoder.subdivide bit prob e)))
    as (e2 & out & Hrun2 & Hg & _); [lia|].
  congruence.
Qed.

Lemma enc_reachable_normal e :
  enc_reachable valid_prob e ->
  enc_inv e /\
  top_byte_same (BinArithEncoder.lo e) (BinArithEncoder.hi e) = false.
Proof.
  induction 1 as [target | e bit prob e' _ [IH1 IH2] Hp Hrun].
  - apply enc_new_normal.
  - eapply enc_encode_normal; eauto.
Qed.

(** ** The decoder keeps [code] inside the interval *)

Lemma be_value_4 b0 b1 b2 b3 :
  be_value [b0; b1; b2; b3] =
  ((Z_of_byte b0 * 256 + Z_of_byte b1) * 256 + Z_of_byte b2) * 256 + Z_of_byte b3.
Proof. reflexivity. Qed.

Lemma be_value_4_range b0 b1 b2 b3 : 0 <= be_value [b0; b1; b2; b3] < 2 ^ 32.
Proof.
  rewrite be_value_4.
  pose proof (Z_of_byte_range b0). pose proof (Z_of_byte_range b1).
  pose proof (Z_of_byte_range b2). pose proof (Z_of_byte_range b3). lia.
Qed.

Lemma dec_new_ok b0 b1 b2 b3 rest :
  BinArithDecoder.new (b0 :: b1 :: b2 :: b3 :: rest) =
    (Ok tt,
     {| BinArithDecoder.code := be_value [b0; b1; b2; b3];
        BinArithDecoder.lo := 0;
        BinArithDecoder.hi := 2 ^ 32 - 1;
        BinArithDecoder.bytes := b0 :: b1 :: b2 :: b3 :: rest;
        BinArithDecoder.read_pos := 4 |}).
Proof.
  unfold BinArithDecoder.new, repeat_, BinArithDecoder.shift_in,
    BinArithDecoder.next_byte, bind, modify, ret. simpl.
  rewrite all_ones_eq. f_equal. f_equal.
  pose proof (Z_of_byte_range b0). pose proof (Z_of_byte_range b1).
  pose proof (Z_of_byte_range b2). pose proof (Z_of_byte_range b3).
  rewrite be_value_4.
  rewrite !shl8_lor_eq by assumption.
  rewrite Z.mod_0_l by lia.
  rewrite (Z.mod_small (0 * 256 + Z_of_byte b0)) by lia.
  rewrite (Z.mod_small ((0 * 256 + Z_of_byte b0) * 256 + Z_of_byte b1)) by lia.
  rewrite (Z.mod_small (((0 * 256 + Z_of_byte b0) * 256 + Z_of_byte b1) * 256
                        + Z_of_byte b2)) by lia.
  lia.
Qed.

Lemma dec_new_short source :
  (length source < 4)%nat ->
  fst (BinArithDecoder.new source) = Err Undefined /\
  BinArithDecoder.read_pos (snd (BinArithDecoder.new source)) = length source.
Proof.
  intros Hlen.
  destruct source as [|b0 [|b1 [|b2 [|b3 rest]]]]; simpl in Hlen; try lia;
    split; reflexivity.
Qed.

Lemma dec_new_inv source d :
  BinArithDecoder.new source = (Ok tt, d) ->
  dec_inv d /\
  top_byte_same (BinArithDecoder.lo d) (BinArithDecoder.hi d) = false.
Proof.
  intros Hnew.
  destruct (Nat.lt_ge_cases (length source) 4) as [Hlt|Hge].
  - destruct (dec_new_short source Hlt) as [Hf _]. rewrite Hnew in Hf. discriminate.
  - destruct source as [|b0 [|b1 [|b2 [|b3 rest]]]]; simpl in Hge; try lia.
    rewrite dec_new_ok in Hnew. injection Hnew as <-.
    pose proof (be_value_4_range b0 b1 b2 b3).
    unfold dec_inv. simpl. split; [lia | reflexivity].
Qed.

(** Whatever the probability argument is. *)
Lemma dec_subdivide_inv prob d :
  dec_inv d -> dec_inv (snd (BinArithDecoder.subdivide prob d)).
Proof.
  intros (H0 & Hlc & Hch & Hhi).
  pose proof (midpoint_range (BinArithDecoder.lo d) (BinArithDecoder.hi d) prob) as Hx.
  unfold dec_inv, BinArithDecoder.subdivide.
  destruct (BinArithDecoder.code d <=? _) eqn:Hc; simpl.
  - apply Z.leb_le in Hc. lia.
  - apply Z.leb_gt in Hc. rewrite u32_small by lia. lia.
Qed.

Lemma dec_step_inv d :
  dec_inv d ->
  top_byte_same (BinArithDecoder.lo d) (BinArithDecoder.hi d) = true ->
  dec_inv (snd (BinArithDecoder.renorm_step d)).
Proof.
  intros Hd G.
  destruct (BinArithDecoder.bytes d !! BinArithDecoder.read_pos d) as [b|] eqn:Hb.
  - rewrite (dec_step_some d b Hb). destruct Hd as (H0 & Hlc & Hch & Hhi).
    apply top_byte_same_iff in G; [|lia|lia].
    pose proof (Z_of_byte_range b).
    unfold dec_inv. simpl. rewrite !shl8_lor_eq, !shl8_eq by lia.
    pose proof (same_top_between _ _ _ (conj H0 Hlc) Hch G) as Hc.
    pose proof (same_top_order _ _ (conj H0 Hlc) (eq_sym Hc)).
    pose proof (same_top_order (BinArithDecoder.code d) (BinArithDecoder.hi d)
                  ltac:(lia) ltac:(congruence)).
    pose proof (Z.mod_pos_bound (BinArithDecoder.lo d) (2 ^ 24) ltac:(lia)).
    pose proof (Z.mod_pos_bound (BinArithDecoder.hi d) (2 ^ 24) ltac:(lia)).
    lia.
  - rewrite (dec_step_none d Hb). exact Hd.
Qed.

Lemma dec_renorm_inv fuel : forall d,
  dec_inv d -> dec_inv (snd (BinArithDecoder.renorm fuel d)).
Proof.
  induction fuel as [|fuel IH]; intros d Hd.
  - destruct (top_byte_same (BinArithDecoder.lo d) (BinArithDecoder.hi d)) eqn:G.
    + rewrite dec_renorm_stuck by assumption. assumption.
    + rewrite dec_renorm_done by assumption. assumption.
  - destruct (top_byte_same (BinArithDecoder.lo d) (BinArithDecoder.hi d)) eqn:G.
    + destruct (BinArithDecoder.bytes d !! BinArithDecoder.read_pos d) as [b|] eqn:Hb.
      * rewrite (dec_renorm_some fuel d b) by assumption.
        apply IH, dec_step_inv; assumption.
      * rewrite dec_renorm_none by assumption. assumption.
    + rewrite dec_renorm_done by assumption. assumption.
Qed.

Lemma dec_decode_inv prob d o d' :
  dec_inv d -> BinArithDecoder.decode prob d = (o, d') -> dec_inv d'.
Proof.
  intros Hd Hrun. rewrite dec_decode_eq in Hrun.
  pose proof (dec_subdivide_inv prob d Hd) as H1.
  destruct (BinArithDecoder.subdivide prob d) as [[bit|f] d1]; simpl in H1.
  - pose proof (dec_renorm_inv loop_fuel d1 H1) as H2.
    destruct (BinArithDecoder.renorm loop_fuel d1) as [[[]|f] d2];
      injection Hrun as _ <-; exact H2.
  - injection Hrun as _ <-. exact H1.
Qed.

Lemma dec_reachable_inv P d : dec_reachable P d -> dec_inv d.
Proof.
  induction 1 as [source d Hnew | d prob bit d' _ IH _ Hrun].
  - apply (dec_new_inv source d Hnew).
  - eapply dec_decode_inv; eauto.
Qed.

(** C9.  In every decoder state reached from construction by calls of
    [decode], whatever the input bytes and the probability arguments,
    [lo <= code <= hi]: after construction and after each call, after the
    subdivision step of a further call, and after every round of its
    renormalization loop (the state the loop has reached when its fuel,
    any number of rounds, is used up, or when it has left). *)
Theorem code_stays_in_interval (d : BinArithDecoder.t) (prob : Z) :
  dec_reachable any_prob d ->
  (BinArithDecoder.lo d <= BinArithDecoder.code d <= BinArithDecoder.hi d) /\
  (let d1 := snd (BinArithDecoder.subdivide prob d) in
   BinArithDecoder.lo d1 <= BinArithDecoder.code d1 <= BinArithDecoder.hi d1) /\
  (forall rounds : nat,
   let d2 := snd (BinArithDecoder.renorm rounds (snd (BinArithDecoder.subdivide prob d))) in
   BinArithDecoder.lo d2 <= BinArithDecoder.code d2 <= BinArithDecoder.hi d2).
Proof.
  intros Hreach. apply dec_reachable_inv in Hreach.
  pose proof (dec_subdivide_inv prob d Hreach) as H1.
  split; [unfold dec_inv in Hreach; lia|].
  split; [unfold dec_inv in H1; simpl; lia|].
  intros rounds. simpl.
  pose proof (dec_renorm_inv rounds _ H1) as H2. unfold dec_inv in H2. lia.
Qed.

Lemma code_stays_in_interval_witness :
  let d := snd (BinArithDecoder.new [x12; x34; x56; x78; x9a]) in
  (BinArithDecoder.lo d <= BinArithDecoder.code d <= BinArithDecoder.hi d) /\
  (let d1 := snd (BinArithDecoder.subdivide 819 d) in
   BinArithDecoder.lo d1 <= BinArithDecoder.code d1 <= BinArithDecoder.hi d1) /\
  (forall rounds : nat,
   let d2 := snd (BinArithDecoder.renorm rounds (snd (BinArithDecoder.subdivide 819 d))) in
   BinArithDecoder.lo d2 <= BinArithDecoder.code d2 <= BinArithDecoder.hi d2).
Proof.
  apply (code_stays_in_interval
           (snd (BinArithDecoder.new [x12; x34; x56; x78; x9a])) 819).
  apply (dec_reach_new any_prob [x12; x34; x56; x78; x9a]). reflexivity.
Defined.

(** C3.  In every encoder state and every decoder state reached from the
    initial interval [lo = 0], [hi = 2^32 - 1] by calls whose probability
    is strictly inside (0, kProbMax), [lo <= hi]; it still holds after the
    subdivision step of a further such call and after every round of its
    renormalization loop.  In the encoder's [bit = 0] branch [x + 1] does
    not wrap and is at most [hi]. *)
Theorem interval_never_inverts
  (e : BinArithEncoder.t) (d : BinArithDecoder.t) (bit prob : Z) :
  enc_reachable valid_prob e ->
  dec_reachable valid_prob d ->
  valid_prob prob ->
  (BinArithEncoder.lo e <= BinArithEncoder.hi e /\
   (let e1 := snd (BinArithEncoder.subdivide bit prob e) in
    BinArithEncoder.lo e1 <= BinArithEncoder.hi e1 /\
    (bit = 0 ->
     BinArithEncoder.lo e1 =
       midpoint (BinArithEncoder.lo e) (BinArithEncoder.hi e) prob + 1 /\
     BinArithEncoder.lo e1 <= BinArithEncoder.hi e) /\
    forall rounds : nat,
      let e2 := snd (BinArithEncoder.renorm rounds e1) in
      BinArithEncoder.lo e2 <= BinArithEncoder.hi e2)) /\
  (BinArithDecoder.lo d <= BinArithDecoder.hi d /\
   (let d1 := snd (BinArithDecoder.subdivide prob d) in
    BinArithDecoder.lo d1 <= BinArithDecoder.hi d1 /\
    forall rounds : nat,
      let d2 := snd (BinArithDecoder.renorm rounds d1) in
      BinArithDecoder.lo d2 <= BinArithDecoder.hi d2)).
Proof.
  intros He Hd Hp. split.
  - destruct (enc_reachable_normal e He) as [Hinv G].
    destruct (enc_subdivide_inv bit prob e Hinv G Hp) as [H1 Hx].
    split; [unfold enc_inv in Hinv; lia|]. cbv zeta.
    split; [unfold enc_inv in H1; lia|].
    split.
    + intros Hb. split; [apply Hx, Hb|].
      subst bit. unfold enc_inv in H1. simpl in *. lia.
    + intros rounds.
      pose proof (enc_renorm_inv rounds _ H1) as H2. unfold enc_inv in H2. lia.
  - apply dec_reachable_inv in Hd.
    pose proof (dec_subdivide_inv prob d Hd) as H1.
    split; [unfold dec_inv in Hd; lia|]. cbv zeta.
    split; [unfold dec_inv in H1; lia|].
    intros rounds.
    pose proof (dec_renorm_inv rounds _ H1) as H2. unfold dec_inv in H2. lia.
Qed.

Lemma interval_never_inverts_witness :
  let e := BinArithEncoder.new [] in
  let d := snd (BinArithDecoder.new [x12; x34; x56; x78]) in
  (BinArithEncoder.lo e <= BinArithEncoder.hi e /\
   (let e1 := snd (BinArithEncoder.subdivide 0 819 e) in
    BinArithEncoder.lo e1 <= BinArithEncoder.hi e1 /\
    (0 = 0 ->
     BinArithEncoder.lo e1 =
       midpoint (BinArithEncoder.lo e) (BinArithEncoder.hi e) 819 + 1 /\
     BinArithEncoder.lo e1 <= BinArithEncoder.hi e) /\
    forall rounds : nat,
      let e2 := snd (BinArithEncoder.renorm rounds e1) in
      BinArithEncoder.lo e2 <= BinArithEncoder.hi e2)) /\
  (BinArithDecoder.lo d <= BinArithDecoder.hi d /\
   (let d1 := snd (BinArithDecoder.subdivide 819 d) in
    BinArithDecoder.lo d1 <= BinArithDecoder.hi d1 /\
    forall rounds : nat,
      let d2 := snd (BinArithDecoder.renorm rounds d1) in
      BinArithDecoder.lo d2 <= BinArithDecoder.hi d2)).
Proof.
  apply (interval_never_inverts
           (BinArithEncoder.new [])
           (snd (BinArithDecoder.new [x12; x34; x56; x78])) 0 819).
  - apply enc_reach_new.
  - apply (dec_reach_new valid_prob [x12; x34; x56; x78]). reflexivity.
  - unfold valid_prob. rewrite kProbMax_eq. lia.
Defined.

(** ** BinShiftModel: the update rule *)

Lemma shiftr_half x n : 0 <= x -> 1 <= n -> 0 <= Z.shiftr x n <= x / 2.
Proof.
  intros Hx Hn. rewrite Z.shiftr_div_pow2 by lia.
  assert (Hpow : 2 ^ 1 <= 2 ^ n) by (apply Z.pow_le_mono_r; lia).
  change (2 ^ 1) with 2 in Hpow.
  split.
  - apply Z.div_pos; lia.
  - apply Z.div_le_compat_l; lia.
Qed.

Lemma shr32_defined {St : Type} x n (s : St) :
  0 <= n <= 31 -> shr32 x n s = (Ok (Z.shiftr x n), s).
Proof.
  intros Hn. unfold shr32.
  destruct (0 <=? n) eqn:H0; [|lia]. destruct (n <? 32) eqn:H1; [|lia].
  reflexivity.
Qed.

Lemma shr32_undefined {St : Type} x n (s : St) :
  n < 0 \/ 32 <= n -> shr32 x n s = (Err BadShift, s).
Proof.
  intros Hn. unfold shr32.
  destruct (0 <=? n) eqn:H0; [|reflexivity].
  destruct (n <? 32) eqn:H1; [lia|reflexivity].
Qed.

(** With a count the shift is defined for, [adapt] is the update of the
    source; with any other it stops and leaves the model alone. *)
Lemma adapt_defined Inertia bit m :
  0 <= Inertia <= 31 ->
  BinShiftModel.adapt Inertia bit m =
    (Ok tt,
     {| BinShiftModel.prob :=
          if bit =? 0
          then u16 (BinShiftModel.prob m - Z.shiftr (BinShiftModel.prob m) Inertia)
          else u16 (u32 (BinShiftModel.prob m
                         + Z.shiftr (u32 (kProbMax - BinShiftModel.prob m)) Inertia)) |}).
Proof.
  intros HI. unfold BinShiftModel.adapt, bind, get, modify.
  destruct (bit =? 0); rewrite shr32_defined by exact HI; reflexivity.
Qed.

Lemma adapt_undefined Inertia bit m :
  Inertia < 0 \/ 32 <= Inertia ->
  BinShiftModel.adapt Inertia bit m = (Err BadShift, m).
Proof.
  intros HI. unfold BinShiftModel.adapt, bind, get, modify.
  destruct (bit =? 0); rewrite shr32_undefined by exact HI; reflexivity.
Qed.

Lemma adapt_run Inertia bit m :
  0 <= Inertia <= 31 ->
  BinShiftModel.adapt Inertia bit m =
    (Ok tt, snd (BinShiftModel.adapt Inertia bit m)).
Proof.
  intros HI. rewrite (adapt_defined Inertia bit m HI). reflexivity.
Qed.

(** One update: nothing wraps, and the probability stays strictly inside. *)
Lemma adapt_step Inertia bit m :
  1 <= Inertia <= 31 -> valid_prob (BinShiftModel.prob m) ->
  BinShiftModel.prob (snd (BinShiftModel.adapt Inertia bit m)) =
    (if bit =? 0
     then BinShiftModel.prob m - Z.shiftr (BinShiftModel.prob m) Inertia
     else BinShiftModel.prob m + Z.shiftr (kProbMax - BinShiftModel.prob m) Inertia) /\
  valid_prob (BinShiftModel.prob (snd (BinShiftModel.adapt Inertia bit m))).
Proof.
  intros [HI HI'] Hp. apply valid_prob_bounds in Hp.
  rewrite (adapt_defined Inertia bit m) by lia.
  unfold valid_prob. rewrite kProbMax_eq. simpl.
  set (p := BinShiftModel.prob m) in *.
  destruct (bit =? 0); simpl.
  - pose proof (shiftr_half p Inertia ltac:(lia) HI) as Hs.
    assert (p / 2 < p) by (apply Z.div_lt_upper_bound; lia).
    rewrite u16_small by lia. split; [reflexivity | lia].
  - rewrite (u32_small (4096 - p)) by lia.
    pose proof (shiftr_half (4096 - p) Inertia ltac:(lia) HI) as Hs.
    assert ((4096 - p) / 2 < 4096 - p) by (apply Z.div_lt_upper_bound; lia).
    rewrite u32_small by lia. rewrite u16_small by lia.
    split; [reflexivity | lia].
Qed.

(** C6, as stated, fails.  The claim is made for every [Inertia >= 1].
    [Inertia] is the count of the two shifts of [adapt], whose operands
    have 32 bits: at [Inertia = 32] the shift is undefined.  So the
    update of a fresh model, whose probability 2048 is strictly inside
    (0, kProbMax), has no defined result, on a 1 as on a 0, and a
    sequence of updates does not yield a probability the code keeps
    inside (0, kProbMax). *)
Lemma adapt_undefined_at_inertia_32 :
  1 <= 32 /\
  0 < BinShiftModel.prob BinShiftModel.new < kProbMax /\
  BinShiftModel.adapt 32 1 BinShiftModel.new = (Err BadShift, BinShiftModel.new) /\
  BinShiftModel.adapt 32 0 BinShiftModel.new = (Err BadShift, BinShiftModel.new) /\
  fst (for_each [1] (BinShiftModel.adapt 32) BinShiftModel.new) = Err BadShift.
Proof.
  split; [lia|]. split; [vm_compute; split; reflexivity|].
  repeat split; reflexivity.
Qed.

(** C6, amended.  For [1 <= Inertia <= 31], the counts the shifts of
    [adapt] are defined for, and a probability strictly inside
    (0, kProbMax), any number of updates by [adapt], with any bits, all
    succeed and leave the probability strictly inside (0, kProbMax): it
    reaches neither 0 nor kProbMax. *)
Theorem adapt_keeps_prob_inside (Inertia : Z) (bits : list Z) (m : BinShiftModel.t) :
  1 <= Inertia <= 31 ->
  0 < BinShiftModel.prob m < kProbMax ->
  fst (for_each bits (BinShiftModel.adapt Inertia) m) = Ok tt /\
  0 < BinShiftModel.prob (snd (for_each bits (BinShiftModel.adapt Inertia) m)) < kProbMax.
Proof.
  intros HI. revert m.
  induction bits as [|bit bits IH]; intros m Hp.
  - simpl. auto.
  - destruct (adapt_step Inertia bit m HI Hp) as [_ Hp'].
    specialize (IH _ Hp'). simpl. unfold bind.
    rewrite adapt_run by lia. exact IH.
Qed.

Lemma adapt_keeps_prob_inside_witness :
  fst (for_each [1; 1; 0; 1] (BinShiftModel.adapt 4) BinShiftModel.new) = Ok tt /\
  0 < BinShiftModel.prob
        (snd (for_each [1; 1; 0; 1] (BinShiftModel.adapt 4) BinShiftModel.new))
    < kProbMax.
Proof.
  apply (adapt_keeps_prob_inside 4 [1; 1; 0; 1] BinShiftModel.new).
  - lia.
  - vm_compute. split; reflexivity.
Defined.

(** ** BinShiftModel: code first, adapt second *)

Lemma enc_encode_ok bit prob e : fst (BinArithEncoder.encode bit prob e) = Ok tt.
Proof.
  destruct loop_fuel_enough as [k Hk]. rewrite enc_encode_eq, Hk.
  destruct (enc_renorm_terminates (4 + k) (snd (BinArithEncoder.subdivide bit prob e)))
    as (e' & out & Hrun & _); [lia|].
  rewrite Hrun. reflexivity.
Qed.

Lemma model_encode_run Inertia bit enc m :
  BinShiftModel.encode Inertia bit (enc, m) =
    (fst (BinShiftModel.adapt Inertia bit m),
     (snd (BinArithEncoder.encode bit (BinShiftModel.prob m) enc),
      snd (BinShiftModel.adapt Inertia bit m))).
Proof.
  unfold BinShiftModel.encode, bind, get, on_fst, on_snd. simpl.
  pose proof (enc_encode_ok bit (BinShiftModel.prob m) enc) as Hok.
  destruct (BinArithEncoder.encode bit (BinShiftModel.prob m) enc) as [o e'].
  simpl in Hok. subst o. simpl.
  destruct (BinShiftModel.adapt Inertia bit m) as [[[]|f] m']; reflexivity.
Qed.

Lemma model_decode_run Inertia dec m :
  BinShiftModel.decode Inertia (dec, m) =
    match BinArithDecoder.decode (BinShiftModel.prob m) dec with
    | (Ok bit, dec') =>
        (match fst (BinShiftModel.adapt Inertia bit m) with
         | Ok _ => Ok bit
         | Err f => Err f
         end,
         (dec', snd (BinShiftModel.adapt Inertia bit m)))
    | (Err f, dec') => (Err f, (dec', m))
    end.
Proof.
  unfold BinShiftModel.decode, bind, get, on_fst, on_snd, ret. simpl.
  destruct (BinArithDecoder.decode (BinShiftModel.prob m) dec) as [[bit|f] dec'];
    [|reflexivity].
  simpl. destruct (BinShiftModel.adapt Inertia bit m) as [[[]|f] m']; reflexivity.
Qed.

Lemma model_encode_eq Inertia bit enc m :
  0 <= Inertia <= 31 ->
  BinShiftModel.encode Inertia bit (enc, m) =
    (Ok tt,
     (snd (BinArithEncoder.encode bit (BinShiftModel.prob m) enc),
      snd (BinShiftModel.adapt Inertia bit m))).
Proof.
  intros HI. rewrite model_encode_run. rewrite (adapt_run Inertia bit m HI).
  reflexivity.
Qed.

Lemma model_decode_eq Inertia dec m :
  0 <= Inertia <= 31 ->
  BinShiftModel.decode Inertia (dec, m) =
    match BinArithDecoder.decode (BinShiftModel.prob m) dec with
    | (Ok bit, dec') => (Ok bit, (dec', snd (BinShiftModel.adapt Inertia bit m)))
    | (Err f, dec') => (Err f, (dec', m))
    end.
Proof.
  intros HI. rewrite model_decode_run.
  destruct (BinArithDecoder.decode (BinShiftModel.prob m) dec) as [[bit|f] dec'];
    [|reflexivity].
  rewrite (adapt_run Inertia bit m HI). reflexivity.
Qed.

(** C7.  A call of the adaptive model runs the coder once, with the
    probability the model held before the call, and then updates the
    probability from the bit that was coded: the coder's state after
    [BinShiftModel::encode] is that of [BinArithEncoder::encode] on the
    old probability, and the model's is [adapt] of the old model; for
    [decode] the bit returned is the one the decoder gives on the old
    probability, and it is the bit [adapt] receives.  When the decoder
    stops at a read past the end, the model is left as it was.  The call
    ends as [adapt] does: for every count [Inertia] from 0 to 31 [adapt]
    succeeds, so [encode] succeeds and [decode] returns the bit; for a
    count its shifts are undefined for, the call stops there, after the
    coder has run. *)
Theorem model_codes_then_adapts
  (Inertia bit : Z) (enc : BinArithEncoder.t) (dec : BinArithDecoder.t)
  (m : BinShiftModel.t) :
  BinShiftModel.encode Inertia bit (enc, m) =
    (fst (BinShiftModel.adapt Inertia bit m),
     (snd (BinArithEncoder.encode bit (BinShiftModel.prob m) enc),
      snd (BinShiftModel.adapt Inertia bit m))) /\
  BinShiftModel.decode Inertia (dec, m) =
    match BinArithDecoder.decode (BinShiftModel.prob m) dec with
    | (Ok b, dec') =>
        (match fst (BinShiftModel.adapt Inertia b m) with
         | Ok _ => Ok b
         | Err f => Err f
         end,
         (dec', snd (BinShiftModel.adapt Inertia b m)))
    | (Err f, dec') => (Err f, (dec', m))
    end /\
  (0 <= Inertia <= 31 ->
   BinShiftModel.encode Inertia bit (enc, m) =
     (Ok tt,
      (snd (BinArithEncoder.encode bit (BinShiftModel.prob m) enc),
       snd (BinShiftModel.adapt Inertia bit m))) /\
   BinShiftModel.decode Inertia (dec, m) =
     match BinArithDecoder.decode (BinShiftModel.prob m) dec with
     | (Ok b, dec') => (Ok b, (dec', snd (BinShiftModel.adapt Inertia b m)))
     | (Err f, dec') => (Err f, (dec', m))
     end).
Proof.
  split; [apply model_encode_run|]. split; [apply model_decode_run|].
  intros HI. split; [apply model_encode_eq | apply model_decode_eq]; exact HI.
Qed.

(** ** Finalization *)

Lemma be_value_be_bytes32 z : be_value (be_bytes32 z) = u32 z.
Proof.
  unfold be_bytes32. rewrite be_value_4, !Z_of_byte_of_Z.
  unfold u8, u32. rewrite !Z.shiftr_div_pow2 by lia.
  change (2 ^ 24) with 16777216. change (2 ^ 16) with 65536.
  change (2 ^ 8) with 256. change (2 ^ 32) with 4294967296.
  Z.div_mod_to_equations. lia.
Qed.

Lemma byte_of_Z_congr a b : u8 a = u8 b -> byte_of_Z a = byte_of_Z b.
Proof. unfold byte_of_Z. intros ->. reflexivity. Qed.

Lemma top_byte_after_shifts z k :
  0 <= k <= 24 ->
  u8 (Z.shiftr (u32 (z * 2 ^ k)) 24) = u8 (Z.shiftr z (24 - k)).
Proof.
  intros Hk. unfold u8, u32. apply Z.bits_inj'. intros n Hn.
  destruct (Z.lt_ge_cases n 8) as [Hlt|Hge].
  - rewrite !Z.mod_pow2_bits_low by lia.
    rewrite !Z.shiftr_spec by lia.
    rewrite Z.mod_pow2_bits_low by lia.
    rewrite Z.mul_pow2_bits by lia. f_equal. lia.
  - rewrite !Z.mod_pow2_bits_high by lia. reflexivity.
Qed.

Lemma shl8_again z k :
  0 <= k -> u32 (Z.shiftl (u32 (z * 2 ^ k)) 8) = u32 (z * 2 ^ (k + 8)).
Proof.
  intros Hk. rewrite Z.shiftl_mul_pow2 by lia. unfold u32.
  rewrite Z.mul_mod_idemp_l by lia.
  rewrite <- Z.mul_assoc, <- Z.pow_add_r by lia. reflexivity.
Qed.

Lemma finish_bytes e :
  fst (BinArithEncoder.finish e) = Ok tt /\
  BinArithEncoder.bytes (snd (BinArithEncoder.finish e)) =
    BinArithEncoder.bytes e ++ be_bytes32 (BinArithEncoder.lo e) /\
  BinArithEncoder.hi (snd (BinArithEncoder.finish e)) = BinArithEncoder.hi e.
Proof.
  unfold BinArithEncoder.finish, repeat_, BinArithEncoder.shift_out, bind, modify, ret.
  simpl. split; [reflexivity|]. split; [|reflexivity].
  rewrite <- !app_assoc. simpl. f_equal. unfold be_bytes32.
  set (lo := BinArithEncoder.lo e).
  assert (H1 : u32 (Z.shiftl lo 8) = u32 (lo * 2 ^ 8))
    by (rewrite Z.shiftl_mul_pow2 by lia; reflexivity).
  rewrite H1, !shl8_again by lia.
  change (8 + 8 + 8) with 24. change (8 + 8) with 16.
  rewrite (byte_of_Z_congr _ _ (top_byte_after_shifts lo 8 ltac:(lia))).
  rewrite (byte_of_Z_congr _ _ (top_byte_after_shifts lo 16 ltac:(lia))).
  rewrite (byte_of_Z_congr _ _ (top_byte_after_shifts lo 24 ltac:(lia))).
  reflexivity.
Qed.

(** C8.  The destructor appends exactly four bytes to the sink: the bytes
    of the final [lo], most significant first (their big-endian value is
    [lo] as a [uint32_t]).  A session with no call of [encode] gives a
    stream of exactly four bytes, and a decoder over that stream is
    constructed and decodes zero symbols without a fault. *)
Theorem finish_appends_lo_big_endian (e : BinArithEncoder.t) (prob : Z) :
  (fst (BinArithEncoder.finish e) = Ok tt /\
   BinArithEncoder.bytes (snd (BinArithEncoder.finish e)) =
     BinArithEncoder.bytes e ++ be_bytes32 (BinArithEncoder.lo e) /\
   length (BinArithEncoder.bytes (snd (BinArithEncoder.finish e))) =
     (length (BinArithEncoder.bytes e) + 4)%nat /\
   be_value (be_bytes32 (BinArithEncoder.lo e)) = u32 (BinArithEncoder.lo e)) /\
  (fst (static_encode prob []) = Ok tt /\
   length (BinArithEncoder.bytes (snd (static_encode prob []))) = 4%nat /\
   is_ok (fst (BinArithDecoder.new (BinArithEncoder.bytes (snd (static_encode prob []))))) = true /\
   static_decode prob 0 (BinArithEncoder.bytes (snd (static_encode prob []))) = Ok []).
Proof.
  destruct (finish_bytes e) as (Hok & Hbytes & _).
  split.
  - split; [exact Hok|]. split; [exact Hbytes|]. split.
    + rewrite Hbytes, length_app. reflexivity.
    + apply be_value_be_bytes32.
  - repeat split; reflexivity.
Qed.

(** ** Faults *)

Lemma kNumSyms_eq NumBits : BitTreeModel.kNumSyms NumBits = 2 ^ NumBits.
Proof.
  unfold BitTreeModel.kNumSyms.
  destruct (Z.le_gt_cases 0 NumBits) as [Hge|Hlt].
  - rewrite Z.shiftl_mul_pow2 by lia. lia.
  - rewrite Z.pow_neg_r by lia.
    rewrite Z.shiftl_div_pow2 by lia.
    apply Z.div_small. split; [lia|].
    assert (2 ^ 1 <= 2 ^ (- NumBits)) by (apply Z.pow_le_mono_r; lia).
    change (2 ^ 1) with 2 in *. lia.
Qed.

(** C5.  A value outside [0, 2^NumBits) makes [BitTreeModel::encode] stop
    at its [assert(value < kNumSyms)], the first statement of the
    function: the failure is the reported kind, the encoder (its sink
    included) and every model are as they were before the call. *)
Theorem tree_encode_rejects_out_of_range
  {T : Type} `{BitModel T} (NumBits value : Z)
  (enc : BinArithEncoder.t) (models : list T) :
  0 <= value ->
  ~ (0 <= value < 2 ^ NumBits) ->
  BitTreeModel.encode NumBits value (enc, models) = (Err AssertFailed, (enc, models)) /\
  reported (fst (BitTreeModel.encode NumBits value (enc, models))) /\
  BinArithEncoder.bytes (fst (snd (BitTreeModel.encode NumBits value (enc, models)))) =
    BinArithEncoder.bytes enc /\
  snd (snd (BitTreeModel.encode NumBits value (enc, models))) = models.
Proof.
  intros Hv Hout.
  assert (Hrun : BitTreeModel.encode NumBits value (enc, models) =
                 (Err AssertFailed, (enc, models))).
  { unfold BitTreeModel.encode. rewrite kNumSyms_eq.
    destruct (value <? 2 ^ NumBits) eqn:Hlt; [|reflexivity].
    apply Z.ltb_lt in Hlt. lia. }
  rewrite Hrun. repeat split.
Qed.

Lemma tree_encode_rejects_out_of_range_witness :
  let enc := BinArithEncoder.new [] in
  let models := BitTreeModel.new (H := BinShiftModel_BitModel 5) 8 in
  BitTreeModel.encode (H := BinShiftModel_BitModel 5) 8 256 (enc, models) =
    (Err AssertFailed, (enc, models)) /\
  reported (fst (BitTreeModel.encode (H := BinShiftModel_BitModel 5) 8 256 (enc, models))) /\
  BinArithEncoder.bytes
    (fst (snd (BitTreeModel.encode (H := BinShiftModel_BitModel 5) 8 256 (enc, models)))) =
    BinArithEncoder.bytes enc /\
  snd (snd (BitTreeModel.encode (H := BinShiftModel_BitModel 5) 8 256 (enc, models))) = models.
Proof.
  apply (tree_encode_rejects_out_of_range (H := BinShiftModel_BitModel 5) 8 256
           (BinArithEncoder.new []) (BitTreeModel.new (H := BinShiftModel_BitModel 5) 8)).
  - lia.
  - lia.
Defined.

(** C4, as the specification states it, fails: a source of three bytes
    makes the constructor read [bytes[3]] past the end.  The read is not
    checked, so what happens is undefined; nothing is reported.  The same
    holds for a stream cut short: the 26 bits coded at probability 819
    give five bytes, and asking the decoder for them over the first four
    bytes only ends in the same unchecked read. *)
Lemma truncated_source_is_not_reported :
  fst (BinArithDecoder.new [x1c; x8e; xfc]) = Err Undefined /\
  ~ reported (fst (BinArithDecoder.new [x1c; x8e; xfc])) /\
  static_decode 819 26 [x1c; x8e; xfc; xcb] = Err Undefined /\
  ~ reported (static_decode 819 26 [x1c; x8e; xfc; xcb]).
Proof.
  split; [reflexivity|]. split; [unfold reported; simpl; discriminate|].
  split; [vm_compute; reflexivity|].
  unfold reported. vm_compute. discriminate.
Qed.

(** C4, amended.  The decoder never checks its reads.  The constructor
    succeeds exactly when the source has four bytes or more, and then the
    cursor is at 4; on a shorter source it ends in an unchecked read past
    the end.  A call of [decode] either returns a bit, its loop having
    left through the guard, or ends in an unchecked read past the end, at
    a point where the loop guard holds and the cursor is at or beyond the
    end of the source; this can only happen when fewer than four bytes
    were left at the call.  In neither case is a failure reported. *)
Theorem decoder_reads_are_unchecked
  (source : list byte) (d : BinArithDecoder.t) (prob : Z) :
  (fst (BinArithDecoder.new source) =
     (if (length source <? 4)%nat then Err Undefined else Ok tt) /\
   (if (length source <? 4)%nat
    then BinArithDecoder.read_pos (snd (BinArithDecoder.new source)) = length source
    else BinArithDecoder.read_pos (snd (BinArithDecoder.new source)) = 4%nat)) /\
  (exists o d',
     BinArithDecoder.decode prob d = (o, d') /\
     ((exists bit, o = Ok bit /\ (bit = 0 \/ bit = 1) /\
        top_byte_same (BinArithDecoder.lo d') (BinArithDecoder.hi d') = false) \/
      (o = Err Undefined /\
       top_byte_same (BinArithDecoder.lo d') (BinArithDecoder.hi d') = true /\
       (length (BinArithDecoder.bytes d') <= BinArithDecoder.read_pos d')%nat /\
       (length (BinArithDecoder.bytes d) < BinArithDecoder.read_pos d + 4)%nat)) /\
     BinArithDecoder.bytes d' = BinArithDecoder.bytes d /\
     (BinArithDecoder.read_pos d <= BinArithDecoder.read_pos d'
        <= BinArithDecoder.read_pos d + 4)%nat).
Proof.
  split.
  - destruct (length source <? 4)%nat eqn:Hlen.
    + apply Nat.ltb_lt in Hlen. apply dec_new_short, Hlen.
    + apply Nat.ltb_ge in Hlen.
      destruct source as [|b0 [|b1 [|b2 [|b3 rest]]]]; simpl in Hlen; try lia.
      rewrite dec_new_ok. split; reflexivity.
  - destruct loop_fuel_enough as [k Hk]. rewrite dec_decode_eq, Hk.
    destruct (dec_subdivide_ok prob d) as (b & Hb & Hbit).
    destruct (dec_subdivide_frame prob d) as (Hbytes & Hpos & _).
    destruct (BinArithDecoder.subdivide prob d) as [o1 d1].
    simpl in Hb, Hbytes, Hpos. subst o1. cbv beta iota.
    destruct (dec_renorm_terminates (4 + k) d1)
      as (o & d' & Hrun & Hex & Hbytes' & Hpos' & Hlast); [lia|].
    rewrite Hrun.
    destruct Hex as [[-> Hg] | (-> & Hg & Hlen)].
    + exists (Ok b), d'. split; [reflexivity|].
      split; [left; exists b; auto|]. split; [congruence | lia].
    + exists (Err Undefined), d'. split; [reflexivity|].
      destruct Hlast as [Hok|Hlt]; [discriminate|].
      split; [right; repeat split; auto; rewrite <- Hbytes, <- Hbytes'; lia|].
      split; [congruence | lia].
Qed.

(** ** The decoder follows the encoder *)

Lemma window_4 r0 r1 r2 r3 rest :
  window (r0 :: r1 :: r2 :: r3 :: rest) = be_value [r0; r1; r2; r3].
Proof. reflexivity. Qed.

Lemma shift_window_back lo hi t w3 r3 :
  0 <= lo <= hi -> hi < 2 ^ 32 ->
  lo / 2 ^ 24 = hi / 2 ^ 24 ->
  0 <= r3 < 256 ->
  lo mod 2 ^ 24 * 256 <= w3 * 256 + r3 <= hi mod 2 ^ 24 * 256 + 255 ->
  t = u8 (Z.shiftr lo 24) ->
  lo <= t * 2 ^ 24 + w3 <= hi.
Proof.
  intros Hlh Hhi Htop Hr Hw ->.
  rewrite shr24_eq. unfold u8.
  assert (Hq : 0 <= lo / 2 ^ 24 < 256).
  { split; [apply Z.div_pos; lia|]. apply Z.div_lt_upper_bound; lia. }
  rewrite Z.mod_small by (change (2 ^ 8) with 256; lia).
  pose proof (Z.div_mod lo (2 ^ 24) ltac:(lia)) as Hl.
  pose proof (Z.div_mod hi (2 ^ 24) ltac:(lia)) as Hh.
  rewrite <- Htop in Hh. lia.
Qed.

Lemma finish_continues e :
  enc_inv e -> continues e (BinArithEncoder.bytes (snd (BinArithEncoder.finish e))).
Proof.
  intros (H0 & Hle & Hhi). destruct (finish_bytes e) as (_ & Hbytes & _).
  exists (be_bytes32 (BinArithEncoder.lo e)).
  split; [exact Hbytes|]. split; [simpl; lia|].
  change (window (be_bytes32 (BinArithEncoder.lo e)))
    with (be_value (be_bytes32 (BinArithEncoder.lo e))).
  rewrite be_value_be_bytes32, u32_small by lia. lia.
Qed.

Lemma enc_step_back e B :
  enc_inv e ->
  top_byte_same (BinArithEncoder.lo e) (BinArithEncoder.hi e) = true ->
  continues (snd (BinArithEncoder.renorm_step e)) B ->
  continues e B.
Proof.
  intros (H0 & Hle & Hhi) G (R1 & HB & Hlen & Hw).
  apply top_byte_same_iff in G; [|lia|lia].
  simpl in HB, Hw. rewrite <- app_assoc in HB. simpl in HB.
  exists (byte_of_Z (Z.shiftr (BinArithEncoder.lo e) 24) :: R1).
  split; [exact HB|]. split; [simpl; lia|].
  destruct R1 as [|r0 [|r1 [|r2 [|r3 rest]]]]; simpl in Hlen; try lia.
  rewrite window_4 in *. rewrite be_value_4 in *.
  rewrite shl8_lor_eq, shl8_eq in Hw by lia.
  rewrite Z_of_byte_of_Z.
  pose proof (Z_of_byte_range r0). pose proof (Z_of_byte_range r1).
  pose proof (Z_of_byte_range r2). pose proof (Z_of_byte_range r3).
  pose proof (shift_window_back (BinArithEncoder.lo e) (BinArithEncoder.hi e)
                (u8 (Z.shiftr (BinArithEncoder.lo e) 24))
                ((Z_of_byte r0 * 256 + Z_of_byte r1) * 256 + Z_of_byte r2)
                (Z_of_byte r3) ltac:(lia) ltac:(lia) G ltac:(lia) ltac:(lia) eq_refl).
  lia.
Qed.

Lemma enc_renorm_back fuel : forall e e' B,
  enc_inv e ->
  BinArithEncoder.renorm fuel e = (Ok tt, e') ->
  continues e' B -> continues e B.
Proof.
  induction fuel as [|fuel IH]; intros e e' B He Hrun Hc.
  - destruct (top_byte_same (BinArithEncoder.lo e) (BinArithEncoder.hi e)) eqn:G.
    + rewrite enc_renorm_stuck in Hrun by assumption. discriminate.
    + rewrite enc_renorm_done in Hrun by assumption. congruence.
  - destruct (top_byte_same (BinArithEncoder.lo e) (BinArithEncoder.hi e)) eqn:G.
    + rewrite enc_renorm_more in Hrun by assumption.
      apply enc_step_back; [assumption | assumption |].
      eapply IH; [apply enc_step_inv; assumption | exact Hrun | exact Hc].
    + rewrite enc_renorm_done in Hrun by assumption. congruence.
Qed.

Lemma enc_subdivide_back bit prob e B :
  enc_normal e -> valid_prob prob ->
  continues (snd (BinArithEncoder.subdivide bit prob e)) B ->
  continues e B.
Proof.
  intros [He G] Hp (R & HB & Hlen & Hw).
  destruct (enc_subdivide_inv bit prob e He G Hp) as [H1 Hx1].
  destruct He as (H0 & Hle & Hhi). apply valid_prob_bounds in Hp.
  pose proof (midpoint_bounds (BinArithEncoder.lo e) (BinArithEncoder.hi e) prob
                ltac:(lia) ltac:(lia) ltac:(lia)) as Hx.
  exists R. split; [|split; [exact Hlen|]].
  - rewrite HB. unfold BinArithEncoder.subdivide, modify. simpl.
    destruct (bit =? 0); reflexivity.
  - destruct (Z.eqb_spec bit 0) as [Hb|Hb].
    + rewrite (Hx1 Hb) in Hw. subst bit. simpl in Hw. lia.
    + unfold BinArithEncoder.subdivide, modify in Hw. simpl in Hw.
      destruct (bit =? 0) eqn:E; [apply Z.eqb_eq in E; contradiction|].
      simpl in Hw. lia.
Qed.

Lemma enc_encode_back bit prob e e' B :
  enc_normal e -> valid_prob prob ->
  BinArithEncoder.encode bit prob e = (Ok tt, e') ->
  continues e' B ->
  continues (snd (BinArithEncoder.subdivide bit prob e)) B /\ continues e B.
Proof.
  intros He Hp Hrun Hc. rewrite enc_encode_eq in Hrun.
  assert (H1 : continues (snd (BinArithEncoder.subdivide bit prob e)) B).
  { eapply enc_renorm_back; [|exact Hrun|exact Hc].
    destruct He as [He G]. apply (enc_subdivide_inv bit prob e He G Hp). }
  split; [exact H1|]. eapply enc_subdivide_back; eauto.
Qed.

Lemma keep_low_three t r0 r1 r2 :
  be_value [t; r0; r1; r2] mod 2 ^ 24 = be_value [r0; r1; r2].
Proof.
  rewrite be_value_4. unfold be_value. simpl.
  pose proof (Z_of_byte_range r0). pose proof (Z_of_byte_range r1).
  pose proof (Z_of_byte_range r2).
  replace (((Z_of_byte t * 256 + Z_of_byte r0) * 256 + Z_of_byte r1) * 256 + Z_of_byte r2)
    with (((Z_of_byte r0 * 256 + Z_of_byte r1) * 256 + Z_of_byte r2)
          + Z_of_byte t * 2 ^ 24) by lia.
  rewrite Z.mod_add by lia. apply Z.mod_small. lia.
Qed.

Lemma dec_step_sync e d B :
  enc_inv e ->
  in_step e d B ->
  continues (snd (BinArithEncoder.renorm_step e)) B ->
  exists d',
    BinArithDecoder.renorm_step d = (Ok tt, d') /\
    in_step (snd (BinArithEncoder.renorm_step e)) d' B.
Proof.
  intros He (Hbytes & Hpos & Hlo & Hhi & R & HB & Hlen & Hcode) (R2 & HB2 & Hlen2 & _).
  simpl in HB2. rewrite <- app_assoc in HB2. simpl in HB2.
  assert (HR : R = byte_of_Z (Z.shiftr (BinArithEncoder.lo e) 24) :: R2).
  { rewrite HB in HB2. apply app_inv_head in HB2. exact HB2. }
  destruct R2 as [|r0 [|r1 [|r2 [|r3 rest]]]]; simpl in Hlen2; try lia.
  assert (Hread : BinArithDecoder.bytes d !! BinArithDecoder.read_pos d = Some r3).
  { rewrite Hbytes, Hpos, HB, HR.
    rewrite lookup_app_r by lia.
    replace (length (BinArithEncoder.bytes e) + 4 - length (BinArithEncoder.bytes e))%nat
      with 4%nat by lia.
    reflexivity. }
  rewrite (dec_step_some d r3 Hread). eexists. split; [reflexivity|].
  unfold in_step. simpl.
  split; [exact Hbytes|]. split; [rewrite Hpos, length_app; simpl; lia|].
  split; [rewrite Hlo; reflexivity|]. split; [rewrite Hhi; reflexivity|].
  exists (r0 :: r1 :: r2 :: r3 :: rest).
  split; [rewrite <- app_assoc; exact HB2|]. split; [simpl; lia|].
  rewrite Hcode, HR, !window_4.
  rewrite shl8_lor_eq by apply Z_of_byte_range.
  rewrite keep_low_three. reflexivity.
Qed.

Lemma dec_renorm_sync fuel : forall e d e' B,
  enc_inv e ->
  in_step e d B ->
  BinArithEncoder.renorm fuel e = (Ok tt, e') ->
  continues e' B ->
  exists d',
    BinArithDecoder.renorm fuel d = (Ok tt, d') /\ in_step e' d' B.
Proof.
  induction fuel as [|fuel IH]; intros e d e' B He Hs Hrun Hc.
  - destruct (top_byte_same (BinArithEncoder.lo e) (BinArithEncoder.hi e)) eqn:G.
    + rewrite enc_renorm_stuck in Hrun by assumption. discriminate.
    + rewrite enc_renorm_done in Hrun by assumption. injection Hrun as <-.
      exists d. split; [|exact Hs]. apply dec_renorm_done.
      destruct Hs as (_ & _ & -> & -> & _). exact G.
  - destruct (top_byte_same (BinArithEncoder.lo e) (BinArithEncoder.hi e)) eqn:G.
    + rewrite enc_renorm_more in Hrun by assumption.
      pose proof (enc_step_inv e He G) as He1.
      pose proof (enc_renorm_back fuel _ _ B He1 Hrun Hc) as Hc1.
      destruct (dec_step_sync e d B He Hs Hc1) as (d1 & Hstep & Hs1).
      destruct (IH _ d1 e' B He1 Hs1 Hrun Hc) as (d' & Hrun' & Hs').
      exists d'. split; [|exact Hs'].
      assert (Gd : top_byte_same (BinArithDecoder.lo d) (BinArithDecoder.hi d) = true).
      { destruct Hs as (_ & _ & -> & -> & _). exact G. }
      simpl. rewrite Gd. unfold bind at 1. rewrite Hstep. exact Hrun'.
    + rewrite enc_renorm_done in Hrun by assumption. injection Hrun as <-.
      exists d. split; [|exact Hs]. apply dec_renorm_done.
      destruct Hs as (_ & _ & -> & -> & _). exact G.
Qed.

Lemma enc_subdivide_bytes bit prob e :
  BinArithEncoder.bytes (snd (BinArithEncoder.subdivide bit prob e)) =
  BinArithEncoder.bytes e.
Proof.
  unfold BinArithEncoder.subdivide, modify. simpl. destruct (bit =? 0); reflexivity.
Qed.

Lemma dec_subdivide_sync bit prob e d B :
  enc_normal e -> valid_prob prob -> is_bit bit ->
  in_step e d B ->
  continues (snd (BinArithEncoder.subdivide bit prob e)) B ->
  exists d1,
    BinArithDecoder.subdivide prob d = (Ok bit, d1) /\
    in_step (snd (BinArithEncoder.subdivide bit prob e)) d1 B.
Proof.
  intros [He G] Hp Hbit (Hbytes & Hpos & Hlo & Hhi & R & HB & Hlen & Hcode)
    (R1 & HB1 & Hlen1 & Hw).
  rewrite enc_subdivide_bytes, HB in HB1. apply app_inv_head in HB1. subst R1.
  destruct (enc_subdivide_inv bit prob e He G Hp) as [_ Hx1].
  unfold BinArithDecoder.subdivide. rewrite Hlo, Hhi, Hcode.
  set (x := midpoint (BinArithEncoder.lo e) (BinArithEncoder.hi e) prob) in *.
  destruct Hbit as [-> | ->].
  - rewrite (Hx1 eq_refl) in Hw.
    destruct (window R <=? x) eqn:Hc; [apply Z.leb_le in Hc; lia|].
    eexists. split; [reflexivity|].
    unfold in_step. simpl. repeat split; try assumption.
    exists R. auto.
  - simpl in Hw. fold x in Hw.
    destruct (window R <=? x) eqn:Hc; [|apply Z.leb_gt in Hc; lia].
    eexists. split; [reflexivity|].
    unfold in_step. simpl. repeat split; try assumption.
    exists R. auto.
Qed.

Lemma decode_sync bit prob e d e' B :
  enc_normal e -> valid_prob prob -> is_bit bit ->
  in_step e d B ->
  BinArithEncoder.encode bit prob e = (Ok tt, e') ->
  continues e' B ->
  exists d',
    BinArithDecoder.decode prob d = (Ok bit, d') /\ in_step e' d' B.
Proof.
  intros He Hp Hbit Hs Hrun Hc.
  destruct (enc_encode_back bit prob e e' B He Hp Hrun Hc) as [Hc1 _].
  destruct (dec_subdivide_sync bit prob e d B He Hp Hbit Hs Hc1) as (d1 & Hsub & Hs1).
  rewrite enc_encode_eq in Hrun.
  assert (He1 : enc_inv (snd (BinArithEncoder.subdivide bit prob e))).
  { destruct He as [He G]. apply (enc_subdivide_inv bit prob e He G Hp). }
  destruct (dec_renorm_sync loop_fuel _ d1 e' B He1 Hs1 Hrun Hc) as (d' & Hrun' & Hs').
  exists d'. split; [|exact Hs'].
  rewrite dec_decode_eq, Hsub, Hrun'. reflexivity.
Qed.

Lemma new_sync target B :
  continues (BinArithEncoder.new target) B ->
  target = [] ->
  exists d,
    BinArithDecoder.new B = (Ok tt, d) /\ in_step (BinArithEncoder.new target) d B.
Proof.
  intros (R & HB & Hlen & _) ->. simpl in HB. subst R.
  destruct B as [|b0 [|b1 [|b2 [|b3 rest]]]]; simpl in Hlen; try lia.
  rewrite dec_new_ok. eexists. split; [reflexivity|].
  unfold in_step. simpl. rewrite all_ones_eq. repeat split.
  exists (b0 :: b1 :: b2 :: b3 :: rest). repeat split. simpl. lia.
Qed.

(** ** Mirrored computations compose *)

Section Mirror.
Context {SE SD : Type}.
Variable pe : SE -> BinArithEncoder.t.
Variable pd : SD -> BinArithDecoder.t.
Variable InvE : SE -> Prop.
Variable Rm : SE -> SD -> Prop.

Lemma mirrors_ret {A : Type} (a : A) :
  mirrors pe pd InvE Rm (ret tt) (ret a) a.
Proof.
  intros se Hinv Hn. exists se.
  split; [reflexivity|]. split; [exact Hinv|]. split; [exact Hn|]. split.
  - auto.
  - intros sd B HR Hs Hc. exists sd. auto.
Qed.

Lemma mirrors_bind {A1 A2 : Type} (ep1 ep2 : M SE unit)
  (dp1 : M SD A1) (dk : A1 -> M SD A2) (a1 : A1) (a2 : A2) :
  mirrors pe pd InvE Rm ep1 dp1 a1 ->
  mirrors pe pd InvE Rm ep2 (dk a1) a2 ->
  mirrors pe pd InvE Rm (bind ep1 (fun _ => ep2)) (bind dp1 dk) a2.
Proof.
  intros H1 H2 se Hinv Hn.
  destruct (H1 se Hinv Hn) as (se1 & Hrun1 & Hinv1 & Hn1 & Hback1 & Hfwd1).
  destruct (H2 se1 Hinv1 Hn1) as (se2 & Hrun2 & Hinv2 & Hn2 & Hback2 & Hfwd2).
  exists se2. unfold bind. rewrite Hrun1.
  split; [exact Hrun2|]. split; [exact Hinv2|]. split; [exact Hn2|]. split.
  - intros B Hc. apply Hback1, Hback2, Hc.
  - intros sd B HR Hs Hc.
    destruct (Hfwd1 sd B HR Hs (Hback2 B Hc)) as (sd1 & Hd1 & HR1 & Hs1).
    destruct (Hfwd2 sd1 B HR1 Hs1 Hc) as (sd2 & Hd2 & HR2 & Hs2).
    exists sd2. rewrite Hd1. auto.
Qed.

Lemma mirrors_map {A1 A2 : Type} (ep : M SE unit) (dp : M SD A1)
  (h : A1 -> A2) (a : A1) :
  mirrors pe pd InvE Rm ep dp a ->
  mirrors pe pd InvE Rm ep (bind dp (fun r => ret (h r))) (h a).
Proof.
  intros H1 se Hinv Hn.
  destruct (H1 se Hinv Hn) as (se1 & Hrun1 & Hinv1 & Hn1 & Hback1 & Hfwd1).
  exists se1. repeat (split; [assumption|]).
  intros sd B HR Hs Hc.
  destruct (Hfwd1 sd B HR Hs Hc) as (sd1 & Hd1 & HR1 & Hs1).
  exists sd1. unfold bind, ret. rewrite Hd1. auto.
Qed.

Lemma mirrors_for_each {X : Type} (f : X -> M SE unit) (g : M SD X) (xs : list X) :
  Forall (fun x => mirrors pe pd InvE Rm (f x) g x) xs ->
  mirrors pe pd InvE Rm (for_each xs f) (collect (length xs) g) xs.
Proof.
  induction 1 as [|x xs Hx _ IH]; simpl.
  - apply mirrors_ret.
  - apply (mirrors_bind _ _ _ _ x); [exact Hx|].
    apply (mirrors_map _ _ (fun rest => x :: rest)), IH.
Qed.

(** A whole session: the encoder starts on an empty sink, runs [ep] and is
    destroyed; a decoder constructed over the bytes it leaves runs [dp]. *)
Lemma mirrors_session {A : Type} (ep : M SE unit) (dp : M SD A) (a : A) (se0 : SE) :
  mirrors pe pd InvE Rm ep dp a ->
  InvE se0 -> pe se0 = BinArithEncoder.new [] ->
  exists se1 d0,
    ep se0 = (Ok tt, se1) /\
    BinArithDecoder.new (BinArithEncoder.bytes (snd (BinArithEncoder.finish (pe se1))))
      = (Ok tt, d0) /\
    forall sd0, pd sd0 = d0 -> Rm se0 sd0 -> exists sd', dp sd0 = (Ok a, sd').
Proof.
  intros Hm Hinv Hnew.
  assert (Hn : enc_normal (pe se0)) by (rewrite Hnew; apply enc_new_normal).
  destruct (Hm se0 Hinv Hn) as (se1 & Hrun & _ & Hn1 & Hback & Hfwd).
  set (B := BinArithEncoder.bytes (snd (BinArithEncoder.finish (pe se1)))).
  assert (Hc1 : continues (pe se1) B) by (apply finish_continues, Hn1).
  pose proof (Hback B Hc1) as Hc0. rewrite Hnew in Hc0.
  destruct (new_sync [] B Hc0 eq_refl) as (d0 & Hd0 & Hs0).
  exists se1, d0. split; [exact Hrun|]. split; [exact Hd0|].
  intros sd0 Hpd HR. rewrite <- Hnew, <- Hpd in Hs0.
  destruct (Hfwd sd0 B HR Hs0 Hc1) as (sd' & Hd & _).
  exists sd'. exact Hd.
Qed.

End Mirror.

(** ** Round trip at a fixed probability *)

Lemma raw_mirrors bit prob :
  valid_prob prob -> is_bit bit ->
  mirrors (fun e => e) (fun d => d) (fun _ => True) (fun _ _ => True)
    (BinArithEncoder.encode bit prob) (BinArithDecoder.decode prob) bit.
Proof.
  intros Hp Hbit e _ Hn.
  pose proof (enc_encode_ok bit prob e) as Hok.
  destruct (BinArithEncoder.encode bit prob e) as [o e'] eqn:Hrun.
  simpl in Hok. subst o. exists e'.
  split; [reflexivity|]. split; [exact I|].
  destruct Hn as [He G].
  split; [eapply enc_encode_normal; eauto|]. split.
  - intros B Hc. eapply enc_encode_back; eauto. split; assumption.
  - intros d B _ Hs Hc.
    destruct (decode_sync bit prob e d e' B (conj He G) Hp Hbit Hs Hrun Hc)
      as (d' & Hd & Hs').
    exists d'. auto.
Qed.

(** C1.  For every bit sequence [source] and every probability strictly
    inside (0, kProbMax): an encoder that codes the bits of [source] at
    that probability and is then destroyed leaves a byte stream from which
    a decoder, asked for as many bits at the same probability, returns
    exactly [source]. *)
Theorem static_round_trip (prob : Z) (source : list Z) :
  0 < prob < kProbMax ->
  Forall is_bit source ->
  fst (static_encode prob source) = Ok tt /\
  static_decode prob (length source)
    (BinArithEncoder.bytes (snd (static_encode prob source))) = Ok source.
Proof.
  intros Hp Hbits.
  assert (Hm : mirrors (fun e => e) (fun d => d) (fun _ => True) (fun _ _ => True)
                 (for_each source (fun bit => BinArithEncoder.encode bit prob))
                 (collect (length source) (BinArithDecoder.decode prob)) source).
  { apply mirrors_for_each. eapply Forall_impl; [exact Hbits|].
    intros bit Hbit. apply raw_mirrors; assumption. }
  destruct (mirrors_session _ _ _ _ _ _ source (BinArithEncoder.new []) Hm I eq_refl)
    as (e1 & d0 & Hrun & Hnew & Hdec).
  destruct (Hdec d0 eq_refl I) as (d' & Hd).
  unfold static_encode, static_decode, bind. rewrite Hrun.
  destruct (finish_bytes e1) as (Hok & _).
  split; [exact Hok|]. rewrite Hnew, Hd. reflexivity.
Qed.

Lemma static_round_trip_witness :
  fst (static_encode 819 [1; 0; 0; 0; 1; 0; 0; 0; 0; 0; 1; 1]) = Ok tt /\
  static_decode 819 (length [1; 0; 0; 0; 1; 0; 0; 0; 0; 0; 1; 1])
    (BinArithEncoder.bytes (snd (static_encode 819 [1; 0; 0; 0; 1; 0; 0; 0; 0; 0; 1; 1])))
    = Ok [1; 0; 0; 0; 1; 0; 0; 0; 0; 0; 1; 1].
Proof.
  apply (static_round_trip 819 [1; 0; 0; 0; 1; 0; 0; 0; 0; 0; 1; 1]).
  - vm_compute. split; reflexivity.
  - repeat constructor; (left; reflexivity) || (right; reflexivity).
Defined.

(** ** Round trip through the bit tree *)

Lemma shift_model_lawful Inertia :
  1 <= Inertia <= 31 ->
  lawful_model (H := BinShiftModel_BitModel Inertia)
    (fun m => valid_prob (BinShiftModel.prob m)).
Proof.
  intros HI. split.
  - unfold valid_prob. vm_compute. split; reflexivity.
  - intros bit Hbit [e m] Hinv Hn. simpl in Hinv, Hn. simpl bm_encode. simpl bm_decode.
    rewrite model_encode_eq by lia.
    pose proof (enc_encode_ok bit (BinShiftModel.prob m) e) as Hok.
    destruct (BinArithEncoder.encode bit (BinShiftModel.prob m) e) as [o e'] eqn:Hrun.
    simpl in Hok. subst o. simpl.
    destruct (adapt_step Inertia bit m HI Hinv) as [_ Hinv'].
    destruct Hn as [He G].
    eexists. split; [reflexivity|]. simpl.
    split; [exact Hinv'|].
    split; [exact (enc_encode_normal bit _ e e' He G Hinv Hrun)|]. split.
    + intros B Hc.
      apply (enc_encode_back bit _ e e' B (conj He G) Hinv Hrun Hc).
    + intros [d m0] B HR Hs Hc. simpl in HR, Hs. subst m0.
      destruct (decode_sync bit _ e d e' B (conj He G) Hinv Hbit Hs Hrun Hc)
        as (d' & Hd & Hs').
      rewrite model_decode_eq by lia. rewrite Hd. eexists. split; [reflexivity|]. simpl. auto.
Qed.

Lemma at_model_mirrors {T A : Type} `{BitModel T} (InvT : T -> Prop) (NumBits : Z)
  (i : Z) (ep : M (BinArithEncoder.t * T) unit) (dp : M (BinArithDecoder.t * T) A) (a : A) :
  (Z.to_nat i < Z.to_nat (2 ^ NumBits - 1))%nat ->
  mirrors fst fst (fun s => InvT (snd s)) (fun s s' => snd s = snd s') ep dp a ->
  mirrors fst fst (tree_inv InvT NumBits) (fun s s' => snd s = snd s')
    (BitTreeModel.at_model i ep) (BitTreeModel.at_model i dp) a.
Proof.
  intros Hi Hm [e ms] [Hall Hlen] Hn. simpl in Hall, Hlen, Hn.
  destruct (lookup_lt_is_Some_2 ms (Z.to_nat i) ltac:(lia)) as [m Hlook].
  assert (Hinv : InvT m) by (eapply Forall_lookup_1; eauto).
  destruct (Hm (e, m) Hinv Hn) as ([e' m'] & Hrun & Hinv' & Hn' & Hback & Hfwd).
  simpl in Hinv', Hn', Hback, Hfwd.
  exists (e', <[Z.to_nat i := m']> ms).
  unfold BitTreeModel.at_model. simpl. rewrite Hlook, Hrun. simpl.
  split; [reflexivity|]. split.
  { split; simpl; [apply Forall_insert; assumption | rewrite length_insert; exact Hlen]. }
  split; [exact Hn'|]. split; [exact Hback|].
  intros [d ms0] B HR Hs Hc. simpl in HR, Hs. subst ms0.
  destruct (Hfwd (d, m) B eq_refl Hs Hc) as ([d' m''] & Hd & HR' & Hs').
  simpl in HR', Hs'. subst m''.
  exists (d', <[Z.to_nat i := m']> ms). simpl. rewrite Hlook, Hd. simpl. auto.
Qed.

Lemma land_pow2_test x j :
  0 <= j -> (Z.land x (2 ^ j) =? 0) = negb (Z.testbit x j).
Proof.
  intros Hj. destruct (Z.testbit x j) eqn:Hb; simpl.
  - apply Z.eqb_neq. intros H0.
    assert (Hc : Z.testbit (Z.land x (2 ^ j)) j = true)
      by (rewrite Z.land_spec, Hb, Z.pow2_bits_true by lia; reflexivity).
    rewrite H0, Z.bits_0 in Hc. discriminate.
  - apply Z.eqb_eq, Z.bits_inj'. intros n Hn.
    rewrite Z.land_spec, Z.bits_0, Z.pow2_bits_eqb by lia.
    destruct (Z.eqb_spec j n) as [->|Hne].
    + rewrite Hb. reflexivity.
    + apply andb_false_r.
Qed.

Lemma kMSB_eq NumBits : 1 <= NumBits -> BitTreeModel.kMSB NumBits = 2 ^ (NumBits - 1).
Proof.
  intros HN. unfold BitTreeModel.kMSB. rewrite kNumSyms_eq.
  replace NumBits with (1 + (NumBits - 1)) at 1 by lia.
  rewrite Z.pow_add_r by lia. change (2 ^ 1) with 2.
  rewrite Z.mul_comm, Z.div_mul by lia. reflexivity.
Qed.

(** The bit coded in a round of [BitTreeModel::encode]. *)
Lemma tree_bit_eq NumBits v k :
  1 <= NumBits -> 0 <= k < NumBits ->
  (if Z.land (v * 2 ^ k) (BitTreeModel.kMSB NumBits) =? 0 then 0 else 1) =
  (v / 2 ^ (NumBits - 1 - k)) mod 2.
Proof.
  intros HN Hk. rewrite kMSB_eq, land_pow2_test by lia.
  rewrite Z.mul_pow2_bits by lia.
  rewrite <- Z.testbit_spec' by lia.
  destruct (Z.testbit v (NumBits - 1 - k)); reflexivity.
Qed.

Lemma pow2_pos n : 0 <= n -> 0 < 2 ^ n.
Proof. intros Hn. apply Z.pow_pos_nonneg; lia. Qed.

Lemma tree_ctx_bounds NumBits v j :
  0 <= j <= NumBits -> 0 <= v < 2 ^ NumBits ->
  0 <= v / 2 ^ j < 2 ^ (NumBits - j).
Proof.
  intros Hj Hv. pose proof (pow2_pos j ltac:(lia)).
  split; [apply Z.div_pos; lia|].
  apply Z.div_lt_upper_bound; [lia|].
  rewrite <- Z.pow_add_r by lia. replace (j + (NumBits - j)) with NumBits by lia. lia.
Qed.

Lemma tree_ctx_next NumBits v j :
  1 <= j <= NumBits -> 0 <= v ->
  2 * (2 ^ (NumBits - j) + v / 2 ^ j) + (v / 2 ^ (j - 1)) mod 2 =
  2 ^ (NumBits - (j - 1)) + v / 2 ^ (j - 1).
Proof.
  intros Hj Hv.
  replace (NumBits - (j - 1)) with (1 + (NumBits - j)) by lia.
  rewrite Z.pow_add_r by lia. change (2 ^ 1) with 2.
  replace j with ((j - 1) + 1) at 2 by lia.
  rewrite Z.pow_add_r by lia. change (2 ^ 1) with 2.
  pose proof (pow2_pos (j - 1) ltac:(lia)).
  rewrite <- Z.div_div by lia.
  pose proof (Z.div_mod (v / 2 ^ (j - 1)) 2 ltac:(lia)). lia.
Qed.

Lemma encode_loop_done {T : Type} `{BitModel T} NumBits fuel ctx value :
  (ctx <? BitTreeModel.kNumSyms NumBits) = false ->
  BitTreeModel.encode_loop NumBits fuel ctx value = ret tt.
Proof. intros Hc. destruct fuel; simpl; rewrite Hc; reflexivity. Qed.

Lemma encode_loop_more {T : Type} `{BitModel T} NumBits fuel ctx value :
  (ctx <? BitTreeModel.kNumSyms NumBits) = true ->
  BitTreeModel.encode_loop NumBits (S fuel) ctx value =
  bind (BitTreeModel.at_model (u64 (ctx - 1))
          (bm_encode (if Z.land value (BitTreeModel.kMSB NumBits) =? 0 then 0 else 1)))
       (fun _ => BitTreeModel.encode_loop NumBits fuel
                   (u64 (ctx + u64 (ctx + (if Z.land value (BitTreeModel.kMSB NumBits) =? 0
                                           then 0 else 1))))
                   (u64 (value + value))).
Proof. intros Hc. simpl. rewrite Hc. reflexivity. Qed.

Lemma decode_loop_done {T : Type} `{BitModel T} NumBits fuel ctx :
  (ctx <? BitTreeModel.kNumSyms NumBits) = false ->
  BitTreeModel.decode_loop NumBits fuel ctx = ret ctx.
Proof. intros Hc. destruct fuel; simpl; rewrite Hc; reflexivity. Qed.

Lemma decode_loop_more {T : Type} `{BitModel T} NumBits fuel ctx :
  (ctx <? BitTreeModel.kNumSyms NumBits) = true ->
  BitTreeModel.decode_loop NumBits (S fuel) ctx =
  bind (BitTreeModel.at_model (u64 (ctx - 1)) bm_decode)
       (fun bit => BitTreeModel.decode_loop NumBits fuel (u64 (ctx + u64 (ctx + bit)))).
Proof. intros Hc. simpl. rewrite Hc. reflexivity. Qed.

Lemma mod2_is_bit x : is_bit (x mod 2).
Proof.
  pose proof (Z.mod_pos_bound x 2 ltac:(lia)). unfold is_bit. lia.
Qed.

(** With [j] bits of [v] still to code, the loops are at the context
    [2^(NumBits-j) + v / 2^j]; they end at the context [2^NumBits + v]. *)
Lemma tree_loop_mirrors {T : Type} `{BitModel T} (InvT : T -> Prop) NumBits v :
  lawful_model InvT ->
  1 <= NumBits <= 16 -> 0 <= v < 2 ^ NumBits ->
  forall (j fuel : nat),
    (j <= fuel)%nat -> Z.of_nat j <= NumBits ->
    mirrors fst fst (tree_inv InvT NumBits) (fun s s' => snd s = snd s')
      (BitTreeModel.encode_loop NumBits fuel
         (2 ^ (NumBits - Z.of_nat j) + v / 2 ^ Z.of_nat j)
         (v * 2 ^ (NumBits - Z.of_nat j)))
      (BitTreeModel.decode_loop NumBits fuel
         (2 ^ (NumBits - Z.of_nat j) + v / 2 ^ Z.of_nat j))
      (2 ^ NumBits + v).
Proof.
  intros [_ Hlaw] HN Hv. induction j as [|j IH]; intros fuel Hfuel Hj.
  - change (Z.of_nat 0) with 0. rewrite Z.sub_0_r, Z.div_1_r.
    assert (Hc : (2 ^ NumBits + v <? BitTreeModel.kNumSyms NumBits) = false)
      by (rewrite kNumSyms_eq; apply Z.ltb_ge; lia).
    rewrite encode_loop_done, decode_loop_done by exact Hc.
    apply mirrors_ret.
  - destruct fuel as [|fuel]; [lia|].
    set (J := Z.of_nat (S j)) in *.
    assert (HJ : Z.of_nat j = J - 1) by lia.
    pose proof (tree_ctx_bounds NumBits v J ltac:(lia) Hv) as Hq.
    pose proof (pow2_pos (NumBits - J) ltac:(lia)) as Hp.
    assert (Hpow : 2 * 2 ^ (NumBits - J) <= 2 ^ NumBits).
    { replace NumBits with (1 + (NumBits - 1)) at 2 by lia.
      rewrite Z.pow_add_r by lia. change (2 ^ 1) with 2.
      assert (2 ^ (NumBits - J) <= 2 ^ (NumBits - 1)) by (apply Z.pow_le_mono_r; lia).
      lia. }
    pose proof (Z.pow_le_mono_r 2 NumBits 16 ltac:(lia) ltac:(lia)) as HN16.
    change (2 ^ 16) with 65536 in HN16.
    set (ctx := 2 ^ (NumBits - J) + v / 2 ^ J) in *.
    assert (Hc : (ctx <? BitTreeModel.kNumSyms NumBits) = true)
      by (rewrite kNumSyms_eq; apply Z.ltb_lt; lia).
    rewrite encode_loop_more, decode_loop_more by exact Hc.
    rewrite (tree_bit_eq NumBits v (NumBits - J)) by lia.
    replace (NumBits - 1 - (NumBits - J)) with (J - 1) by lia.
    set (bit := (v / 2 ^ (J - 1)) mod 2).
    pose proof (mod2_is_bit (v / 2 ^ (J - 1))) as Hbit. fold bit in Hbit.
    assert (Hbit' : 0 <= bit <= 1) by (destruct Hbit; lia).
    assert (Hctx' : u64 (ctx + u64 (ctx + bit)) =
                    2 ^ (NumBits - (J - 1)) + v / 2 ^ (J - 1)).
    { rewrite (u64_small (ctx + bit)) by lia. rewrite u64_small by lia.
      rewrite <- (tree_ctx_next NumBits v J) by lia. fold ctx bit. lia. }
    assert (Hval' : u64 (v * 2 ^ (NumBits - J) + v * 2 ^ (NumBits - J)) =
                    v * 2 ^ (NumBits - (J - 1))).
    { replace (NumBits - (J - 1)) with (1 + (NumBits - J)) by lia.
      rewrite Z.pow_add_r by lia. change (2 ^ 1) with 2.
      rewrite u64_small; [lia|].
      assert (0 <= v * 2 ^ (NumBits - J) <= 65536 * 65536) by nia. lia. }
    rewrite Hval'.
    apply (mirrors_bind _ _ _ _ _ _ _ _ bit).
    + apply at_model_mirrors; [|apply Hlaw, Hbit].
      rewrite u64_small by lia. lia.
    + cbv beta. rewrite Hctx', <- HJ. apply IH; lia.
Qed.

Lemma tree_mirrors {T : Type} `{BitModel T} (InvT : T -> Prop) NumBits v :
  lawful_model InvT ->
  1 <= NumBits <= 16 -> 0 <= v < 2 ^ NumBits ->
  mirrors fst fst (tree_inv InvT NumBits) (fun s s' => snd s = snd s')
    (BitTreeModel.encode NumBits v) (BitTreeModel.decode NumBits) v.
Proof.
  intros Hlaw HN Hv.
  pose proof (tree_loop_mirrors InvT NumBits v Hlaw HN Hv (Z.to_nat NumBits) loop_fuel
                ltac:(unfold loop_fuel; lia) ltac:(lia)) as Hloop.
  rewrite Z2Nat.id, Z.sub_diag in Hloop by lia.
  rewrite (Z.div_small v) in Hloop by lia.
  change (2 ^ 0 + 0) with 1 in Hloop. change (2 ^ 0) with 1 in Hloop.
  rewrite Z.mul_1_r in Hloop.
  unfold BitTreeModel.encode, BitTreeModel.decode.
  assert (Hc : (v <? BitTreeModel.kNumSyms NumBits) = true)
    by (rewrite kNumSyms_eq; apply Z.ltb_lt; lia).
  rewrite Hc.
  pose proof (mirrors_map _ _ _ _ _ _
                (fun ctx => u64 (ctx - BitTreeModel.kNumSyms NumBits)) _ Hloop) as Hm.
  cbv beta in Hm.
  replace (u64 (2 ^ NumBits + v - BitTreeModel.kNumSyms NumBits)) with v in Hm;
    [exact Hm|].
  rewrite kNumSyms_eq.
  pose proof (Z.pow_le_mono_r 2 NumBits 16 ltac:(lia) ltac:(lia)) as HN16.
  change (2 ^ 16) with 65536 in HN16.
  rewrite u64_small by lia. lia.
Qed.

Lemma tree_new_inv {T : Type} `{BitModel T} (InvT : T -> Prop) NumBits (e : BinArithEncoder.t) :
  InvT bm_new -> tree_inv InvT NumBits (e, BitTreeModel.new NumBits).
Proof.
  intros Hnew. unfold tree_inv, BitTreeModel.new. simpl. split.
  - apply Forall_replicate, Hnew.
  - rewrite length_replicate, kNumSyms_eq. reflexivity.
Qed.

(** C2.  For [NumBits] in [1, 16] and symbols in [0, 2^NumBits): coding
    the symbols with a fresh [BitTreeModel] over [BinShiftModel]s (of an
    inertia from 1 to 31, the adaptive models whose update is defined) and
    destroying the encoder leaves a byte stream from which a decoder with
    a tree built the same way returns the same symbols, in order. *)
Theorem tree_round_trip (Inertia NumBits : Z) (source : list Z) :
  1 <= Inertia <= 31 ->
  1 <= NumBits <= 16 ->
  Forall (fun v => 0 <= v < 2 ^ NumBits) source ->
  fst (tree_encode (H := BinShiftModel_BitModel Inertia) NumBits source) = Ok tt /\
  tree_decode (H := BinShiftModel_BitModel Inertia) NumBits (length source)
    (BinArithEncoder.bytes
       (fst (snd (tree_encode (H := BinShiftModel_BitModel Inertia) NumBits source))))
    = Ok source.
Proof.
  intros HI HN Hsrc.
  pose proof (shift_model_lawful Inertia HI) as Hlaw.
  set (InvT := fun m => valid_prob (BinShiftModel.prob m)) in *.
  assert (Hm : mirrors fst fst (tree_inv InvT NumBits) (fun s s' => snd s = snd s')
                 (for_each source
                    (BitTreeModel.encode (H := BinShiftModel_BitModel Inertia) NumBits))
                 (collect (length source)
                    (BitTreeModel.decode (H := BinShiftModel_BitModel Inertia) NumBits))
                 source).
  { apply mirrors_for_each. eapply Forall_impl; [exact Hsrc|].
    intros v Hv. apply tree_mirrors; assumption. }
  destruct (mirrors_session _ _ _ _ _ _ source
              (BinArithEncoder.new [],
               BitTreeModel.new (H := BinShiftModel_BitModel Inertia) NumBits)
              Hm (tree_new_inv InvT NumBits _ (proj1 Hlaw)) eq_refl)
    as ([e1 ms1] & d0 & Hrun & Hnew & Hdec).
  destruct (Hdec (d0, BitTreeModel.new (H := BinShiftModel_BitModel Inertia) NumBits)
              eq_refl eq_refl) as (sd' & Hd).
  simpl in Hnew.
  destruct (finish_bytes e1) as (Hok & _).
  unfold tree_encode, tree_decode, bind. rewrite Hrun. unfold on_fst. simpl.
  destruct (BinArithEncoder.finish e1) as [o e2]. simpl in *. subst o.
  split; [reflexivity|]. rewrite Hnew, Hd. reflexivity.
Qed.

Lemma tree_round_trip_witness :
  fst (tree_encode (H := BinShiftModel_BitModel 5) 3 [5; 0; 7; 2; 5]) = Ok tt /\
  tree_decode (H := BinShiftModel_BitModel 5) 3 (length [5; 0; 7; 2; 5])
    (BinArithEncoder.bytes
       (fst (snd (tree_encode (H := BinShiftModel_BitModel 5) 3 [5; 0; 7; 2; 5]))))
    = Ok [5; 0; 7; 2; 5].
Proof.
  apply (tree_round_trip 5 3 [5; 0; 7; 2; 5]).
  - lia.
  - lia.
  - repeat constructor; simpl; lia.
Defined.

(** ** Round trip through one adaptive model *)

(** X1 (one adaptive model).  The round trip of [example_dynamic]: with a
    freshly constructed [BinShiftModel] of an inertia from 1 to 31 on each
    side and every bit coded through it, the decoder returns the bits that
    were coded. *)
Corollary adaptive_round_trip (Inertia : Z) (source : list Z) :
  1 <= Inertia <= 31 ->
  Forall is_bit source ->
  fst (adaptive_encode Inertia source) = Ok tt /\
  adaptive_decode Inertia (length source)
    (BinArithEncoder.bytes (fst (snd (adaptive_encode Inertia source)))) = Ok source.
Proof.
  intros HI Hbits.
  destruct (shift_model_lawful Inertia HI) as [Hnew Hlaw].
  simpl in Hnew, Hlaw.
  assert (Hm : mirrors fst fst
                 (fun s : BinArithEncoder.t * BinShiftModel.t =>
                    valid_prob (BinShiftModel.prob (snd s)))
                 (fun s (s' : BinArithDecoder.t * BinShiftModel.t) => snd s = snd s')
                 (for_each source (BinShiftModel.encode Inertia))
                 (collect (length source) (BinShiftModel.decode Inertia)) source).
  { apply mirrors_for_each. eapply Forall_impl; [exact Hbits|].
    intros bit Hbit. apply Hlaw, Hbit. }
  destruct (mirrors_session _ _ _ _ _ _ source
              (BinArithEncoder.new [], BinShiftModel.new) Hm Hnew eq_refl)
    as ([e1 m1] & d0 & Hrun & Hdnew & Hdec).
  destruct (Hdec (d0, BinShiftModel.new) eq_refl eq_refl) as (sd' & Hd).
  simpl in Hdnew.
  destruct (finish_bytes e1) as (Hok & _).
  unfold adaptive_encode, adaptive_decode, bind. rewrite Hrun. unfold on_fst. simpl.
  destruct (BinArithEncoder.finish e1) as [o e2]. simpl in *. subst o.
  split; [reflexivity|]. rewrite Hdnew, Hd. reflexivity.
Qed.

Lemma adaptive_round_trip_witness :
  fst (adaptive_encode 4 [1; 1; 0; 1; 1; 1; 0; 1]) = Ok tt /\
  adaptive_decode 4 (length [1; 1; 0; 1; 1; 1; 0; 1])
    (BinArithEncoder.bytes (fst (snd (adaptive_encode 4 [1; 1; 0; 1; 1; 1; 0; 1]))))
    = Ok [1; 1; 0; 1; 1; 1; 0; 1].
Proof.
  apply (adaptive_round_trip 4 [1; 1; 0; 1; 1; 1; 0; 1]).
  - lia.
  - repeat constructor; (left; reflexivity) || (right; reflexivity).
Defined.

(** * Further properties of the code *)

(** ** The constructor of the decoder reads back what the destructor of
    the encoder writes *)

(** X5 (bootstrap).  Over a source that starts with the four bytes of a
    [uint32_t], most significant first, the constructor of the decoder
    succeeds, leaves the cursor at 4 and holds that number in [code]. *)
Theorem new_reads_big_endian (z : Z) (rest : list byte) :
  BinArithDecoder.new (be_bytes32 z ++ rest) =
    (Ok tt,
     {| BinArithDecoder.code := u32 z;
        BinArithDecoder.lo := 0;
        BinArithDecoder.hi := 2 ^ 32 - 1;
        BinArithDecoder.bytes := be_bytes32 z ++ rest;
        BinArithDecoder.read_pos := 4 |}).
Proof.
  unfold be_bytes32. simpl app. rewrite dec_new_ok.
  change [byte_of_Z (Z.shiftr z 24); byte_of_Z (Z.shiftr z 16);
          byte_of_Z (Z.shiftr z 8); byte_of_Z z] with (be_bytes32 z).
  rewrite be_value_be_bytes32. reflexivity.
Qed.

(** ** Size of the output *)

Lemma enc_encode_appends bit prob e :
  exists e' out,
    BinArithEncoder.encode bit prob e = (Ok tt, e') /\
    BinArithEncoder.bytes e' = BinArithEncoder.bytes e ++ out /\
    (length out <= 4)%nat.
Proof.
  destruct loop_fuel_enough as [k Hk]. rewrite enc_encode_eq, Hk.
  destruct (enc_renorm_terminates (4 + k) (snd (BinArithEncoder.subdivide bit prob e)))
    as (e' & out & Hrun & _ & Hout & Hlen); [lia|].
  exists e', out. rewrite enc_subdivide_bytes in Hout. auto.
Qed.

Lemma for_each_encode_appends (f : Z -> Z * Z) (source : list Z) : forall e,
  exists e' out,
    for_each source (fun x => BinArithEncoder.encode (fst (f x)) (snd (f x))) e = (Ok tt, e') /\
    BinArithEncoder.bytes e' = BinArithEncoder.bytes e ++ out /\
    (length out <= 4 * length source)%nat.
Proof.
  induction source as [|x source IH]; intros e.
  - exists e, []. simpl. rewrite app_nil_r. repeat split. lia.
  - destruct (enc_encode_appends (fst (f x)) (snd (f x)) e) as (e1 & out1 & Hrun1 & Hout1 & Hlen1).
    destruct (IH e1) as (e' & out & Hrun & Hout & Hlen).
    exists e', (out1 ++ out). simpl. unfold bind. rewrite Hrun1.
    split; [exact Hrun|]. split.
    + rewrite Hout, Hout1, app_assoc. reflexivity.
    + rewrite length_app. lia.
Qed.

(** X4 (the sink only grows).  Whatever the bits and the probabilities,
    calls of [encode] from any encoder state succeed, keep what the sink
    held and append at most four bytes each; a whole session of [n] calls
    followed by the destructor leaves between 4 and [4 * n + 4] bytes. *)
Theorem encode_calls_only_append
  (prob : Z) (source : list Z) (e : BinArithEncoder.t) :
  (exists e' out,
     for_each source (fun bit => BinArithEncoder.encode bit prob) e = (Ok tt, e') /\
     BinArithEncoder.bytes e' = BinArithEncoder.bytes e ++ out /\
     (length out <= 4 * length source)%nat) /\
  fst (static_encode prob source) = Ok tt /\
  (4 <= length (BinArithEncoder.bytes (snd (static_encode prob source)))
     <= 4 * length source + 4)%nat.
Proof.
  split; [apply (for_each_encode_appends (fun bit => (bit, prob)))|].
  destruct (for_each_encode_appends (fun bit => (bit, prob)) source (BinArithEncoder.new []))
    as (e' & out & Hrun & Hout & Hlen).
  simpl in Hrun, Hout.
  destruct (finish_bytes e') as (Hok & Hbytes & _).
  unfold static_encode, bind. rewrite Hrun.
  split; [exact Hok|].
  rewrite Hbytes, Hout, length_app. simpl. lia.
Qed.

(** ** How a [BinShiftModel] moves *)

Lemma shiftr_zero_iff x n : 0 <= x -> 0 <= n -> Z.shiftr x n = 0 <-> x < 2 ^ n.
Proof.
  intros Hx Hn. rewrite Z.shiftr_div_pow2 by lia.
  pose proof (pow2_pos n Hn). rewrite Z.div_small_iff by lia. lia.
Qed.

(** X6 (direction of an update).  For [1 <= Inertia <= 31] and a
    probability strictly inside (0, kProbMax) the update succeeds: a 1
    never lowers the probability, a 0 never raises it, and the update
    leaves it where it is exactly when the distance to the bound it moves
    towards is below [2^Inertia]. *)
Theorem adapt_moves_toward_bit (Inertia bit : Z) (m : BinShiftModel.t) :
  1 <= Inertia <= 31 ->
  0 < BinShiftModel.prob m < kProbMax ->
  let p := BinShiftModel.prob m in
  let p' := BinShiftModel.prob (snd (BinShiftModel.adapt Inertia bit m)) in
  fst (BinShiftModel.adapt Inertia bit m) = Ok tt /\
  (bit <> 0 -> p <= p' /\ (p' = p <-> kProbMax - p < 2 ^ Inertia)) /\
  (bit = 0 -> p' <= p /\ (p' = p <-> p < 2 ^ Inertia)).
Proof.
  intros HI Hp. cbv zeta.
  split; [rewrite adapt_run by lia; reflexivity|].
  destruct (adapt_step Inertia bit m HI Hp) as [Heq _]. rewrite Heq.
  apply valid_prob_bounds in Hp. rewrite kProbMax_eq.
  pose proof (shiftr_half (BinShiftModel.prob m) Inertia ltac:(lia) ltac:(lia)) as H0.
  pose proof (shiftr_half (4096 - BinShiftModel.prob m) Inertia ltac:(lia) ltac:(lia)) as H1.
  pose proof (shiftr_zero_iff (BinShiftModel.prob m) Inertia ltac:(lia) ltac:(lia)) as Z0.
  pose proof (shiftr_zero_iff (4096 - BinShiftModel.prob m) Inertia ltac:(lia) ltac:(lia)) as Z1.
  split; intros Hb.
  - destruct (Z.eqb_spec bit 0) as [E|_]; [contradiction|]. lia.
  - subst bit. simpl. lia.
Qed.

Lemma adapt_moves_toward_bit_witness :
  let m := BinShiftModel.new in
  let p := BinShiftModel.prob m in
  let p' := BinShiftModel.prob (snd (BinShiftModel.adapt 4 1 m)) in
  fst (BinShiftModel.adapt 4 1 m) = Ok tt /\
  (1 <> 0 -> p <= p' /\ (p' = p <-> kProbMax - p < 2 ^ 4)) /\
  (1 = 0 -> p' <= p /\ (p' = p <-> p < 2 ^ 4)).
Proof.
  apply (adapt_moves_toward_bit 4 1 BinShiftModel.new).
  - lia.
  - vm_compute. split; reflexivity.
Defined.

Lemma adapt_band_step Inertia bit m :
  1 <= Inertia <= 11 ->
  2 ^ Inertia - 1 <= BinShiftModel.prob m <= kProbMax - (2 ^ Inertia - 1) ->
  2 ^ Inertia - 1 <= BinShiftModel.prob (snd (BinShiftModel.adapt Inertia bit m))
    <= kProbMax - (2 ^ Inertia - 1).
Proof.
  intros HI Hband.
  assert (Hpow : 2 ^ 1 <= 2 ^ Inertia <= 2 ^ 11)
    by (split; apply Z.pow_le_mono_r; lia).
  change (2 ^ 1) with 2 in Hpow. change (2 ^ 11) with 2048 in Hpow.
  rewrite kProbMax_eq in *.
  assert (Hp : valid_prob (BinShiftModel.prob m))
    by (unfold valid_prob; rewrite kProbMax_eq; lia).
  destruct (adapt_step Inertia bit m ltac:(lia) Hp) as [Heq _]. rewrite Heq.
  rewrite kProbMax_eq. rewrite !Z.shiftr_div_pow2 by lia.
  set (p := BinShiftModel.prob m) in *. set (s := 2 ^ Inertia) in *.
  pose proof (Z.div_mod p s ltac:(lia)) as Hd0.
  pose proof (Z.mod_pos_bound p s ltac:(lia)) as Hm0.
  pose proof (Z.div_mod (4096 - p) s ltac:(lia)) as Hd1.
  pose proof (Z.mod_pos_bound (4096 - p) s ltac:(lia)) as Hm1.
  assert (0 <= p / s) by (apply Z.div_pos; lia).
  assert (0 <= (4096 - p) / s) by (apply Z.div_pos; lia).
  destruct (bit =? 0).
  - destruct (Z.eq_dec (p / s) 0) as [E|E]; [rewrite E in *; lia|]. nia.
  - destruct (Z.eq_dec ((4096 - p) / s) 0) as [E|E]; [rewrite E in *; lia|]. nia.
Qed.

(** X7 (band of a fresh model).  With [1 <= Inertia <= 11] the
    probability of a freshly constructed model stays in
    [2^Inertia - 1, kProbMax - (2^Inertia - 1)] under any sequence of
    updates. *)
Theorem fresh_model_stays_in_band (Inertia : Z) (bits : list Z) :
  1 <= Inertia <= 11 ->
  2 ^ Inertia - 1
    <= BinShiftModel.prob (snd (for_each bits (BinShiftModel.adapt Inertia) BinShiftModel.new))
    <= kProbMax - (2 ^ Inertia - 1).
Proof.
  intros HI.
  assert (Hnew : 2 ^ Inertia - 1 <= BinShiftModel.prob BinShiftModel.new
                 <= kProbMax - (2 ^ Inertia - 1)).
  { assert (2 ^ Inertia <= 2 ^ 11) by (apply Z.pow_le_mono_r; lia).
    change (2 ^ 11) with 2048 in *. change (BinShiftModel.prob BinShiftModel.new) with 2048.
    rewrite kProbMax_eq. lia. }
  revert Hnew. generalize BinShiftModel.new.
  induction bits as [|bit bits IH]; intros m Hm.
  - exact Hm.
  - simpl. unfold bind. rewrite adapt_run by lia.
    apply IH, adapt_band_step; assumption.
Qed.

Lemma fresh_model_stays_in_band_witness :
  2 ^ 4 - 1
    <= BinShiftModel.prob
         (snd (for_each [0; 0; 1; 0] (BinShiftModel.adapt 4) BinShiftModel.new))
    <= kProbMax - (2 ^ 4 - 1).
Proof.
  apply (fresh_model_stays_in_band 4 [0; 0; 1; 0]). lia.
Defined.

(** X8 (no adaptation).  With [12 <= Inertia <= 31] both shifts are
    defined and give 0 on a probability strictly inside (0, kProbMax):
    every update of a sequence succeeds and none changes the model. *)
Theorem large_inertia_never_adapts (Inertia : Z) (bits : list Z) (m : BinShiftModel.t) :
  12 <= Inertia <= 31 ->
  0 < BinShiftModel.prob m < kProbMax ->
  fst (for_each bits (BinShiftModel.adapt Inertia) m) = Ok tt /\
  BinShiftModel.prob (snd (for_each bits (BinShiftModel.adapt Inertia) m)) =
  BinShiftModel.prob m.
Proof.
  intros HI. revert m. induction bits as [|bit bits IH]; intros m Hp.
  - split; reflexivity.
  - destruct (adapt_step Inertia bit m ltac:(lia) Hp) as [Heq Hv].
    simpl. unfold bind. rewrite adapt_run by lia.
    destruct (IH _ Hv) as [IHok IHeq]. split; [exact IHok|].
    etransitivity; [exact IHeq|]. rewrite Heq.
    apply valid_prob_bounds in Hp. rewrite kProbMax_eq.
    assert (Hpow : 2 ^ 12 <= 2 ^ Inertia) by (apply Z.pow_le_mono_r; lia).
    change (2 ^ 12) with 4096 in Hpow.
    rewrite (proj2 (shiftr_zero_iff (BinShiftModel.prob m) Inertia ltac:(lia) ltac:(lia)))
      by lia.
    rewrite (proj2 (shiftr_zero_iff (4096 - BinShiftModel.prob m) Inertia
                      ltac:(lia) ltac:(lia))) by lia.
    destruct (bit =? 0); lia.
Qed.

Lemma large_inertia_never_adapts_witness :
  fst (for_each [1; 1; 0] (BinShiftModel.adapt 12) BinShiftModel.new) = Ok tt /\
  BinShiftModel.prob (snd (for_each [1; 1; 0] (BinShiftModel.adapt 12) BinShiftModel.new)) =
  BinShiftModel.prob BinShiftModel.new.
Proof.
  apply (large_inertia_never_adapts 12 [1; 1; 0] BinShiftModel.new).
  - lia.
  - vm_compute. split; reflexivity.
Defined.


(** ** The bounds of the probability range *)

Lemma dec_decode_exit prob d o d' :
  BinArithDecoder.decode prob d = (o, d') ->
  is_ok o = true ->
  top_byte_same (BinArithDecoder.lo d') (BinArithDecoder.hi d') = false.
Proof.
  intros Hrun Hok. destruct loop_fuel_enough as [k Hk].
  rewrite dec_decode_eq, Hk in Hrun.
  destruct (BinArithDecoder.subdivide prob d) as [[bit|f] d1].
  - destruct (dec_renorm_terminates (4 + k) d1)
      as (o1 & d2 & Hrun1 & Hex & _); [lia|].
    rewrite Hrun1 in Hrun.
    destruct Hex as [[-> Hg] | (-> & _)].
    + injection Hrun as _ <-. exact Hg.
    + injection Hrun as <- _. discriminate.
  - injection Hrun as <- _. discriminate.
Qed.

Lemma dec_reachable_normal P d :
  dec_reachable P d ->
  dec_inv d /\
  top_byte_same (BinArithDecoder.lo d) (BinArithDecoder.hi d) = false.
Proof.
  intros Hr. split; [apply (dec_reachable_inv P d Hr)|].
  destruct Hr as [source d Hnew | d prob bit d' _ _ Hrun].
  - apply (dec_new_inv source d Hnew).
  - apply (dec_decode_exit prob d (Ok bit) d' Hrun). reflexivity.
Qed.

Lemma midpoint_certain lo hi :
  0 <= lo <= hi -> hi < 2 ^ 32 -> midpoint lo hi kProbMax = hi.
Proof.
  intros Hlh Hhi. rewrite kProbMax_eq, midpoint_eq by lia.
  rewrite Z.div_mul by lia. lia.
Qed.

(** X10 (probability [kProbMax]).  At [prob = kProbMax] the subdivision
    point is [hi]: coding a 1 leaves a reachable encoder exactly as it
    was, nothing written, and [decode] returns 1 on every reachable
    decoder and leaves it as it was, nothing read.  So the decoder cannot
    return a 0 at this probability, whatever was coded. *)
Theorem certain_one_is_free
  (e : BinArithEncoder.t) (d : BinArithDecoder.t) (bit : Z) :
  enc_reachable valid_prob e ->
  dec_reachable any_prob d ->
  bit <> 0 ->
  BinArithEncoder.encode bit kProbMax e = (Ok tt, e) /\
  BinArithDecoder.decode kProbMax d = (Ok 1, d).
Proof.
  intros He Hd Hbit. split.
  - destruct (enc_reachable_normal e He) as [(H0 & Hle & Hhi) G].
    rewrite enc_encode_eq.
    assert (Hsub : snd (BinArithEncoder.subdivide bit kProbMax e) = e).
    { unfold BinArithEncoder.subdivide, modify. simpl.
      destruct (Z.eqb_spec bit 0) as [E|_]; [contradiction|].
      rewrite midpoint_certain by lia. destruct e; reflexivity. }
    rewrite Hsub. apply enc_renorm_done, G.
  - destruct (dec_reachable_normal any_prob d Hd) as [(H0 & Hlc & Hch & Hhi) G].
    rewrite dec_decode_eq.
    assert (Hsub : BinArithDecoder.subdivide kProbMax d = (Ok 1, d)).
    { unfold BinArithDecoder.subdivide. rewrite midpoint_certain by lia.
      destruct (BinArithDecoder.code d <=? BinArithDecoder.hi d) eqn:Hc;
        [|apply Z.leb_gt in Hc; lia].
      destruct d; reflexivity. }
    rewrite Hsub, dec_renorm_done by exact G. reflexivity.
Qed.

Lemma certain_one_is_free_witness :
  let e := BinArithEncoder.new [] in
  let d := snd (BinArithDecoder.new [x12; x34; x56; x78]) in
  BinArithEncoder.encode 1 kProbMax e = (Ok tt, e) /\
  BinArithDecoder.decode kProbMax d = (Ok 1, d).
Proof.
  apply (certain_one_is_free (BinArithEncoder.new [])
           (snd (BinArithDecoder.new [x12; x34; x56; x78])) 1).
  - apply enc_reach_new.
  - apply (dec_reach_new any_prob [x12; x34; x56; x78]). reflexivity.
  - discriminate.
Defined.

(** X9 (inertia 0).  With [Inertia = 0] a single update on a 1 puts the
    probability on [kProbMax], and a model that holds [kProbMax] is stuck
    there: on every reachable decoder its [decode] returns 1, reads
    nothing and leaves decoder and model as they were. *)
Theorem zero_inertia_model_gets_stuck
  (bit : Z) (d : BinArithDecoder.t) (m : BinShiftModel.t) :
  0 < BinShiftModel.prob m < kProbMax ->
  dec_reachable any_prob d ->
  bit <> 0 ->
  let m' := snd (BinShiftModel.adapt 0 bit m) in
  BinShiftModel.prob m' = kProbMax /\
  BinShiftModel.decode 0 (d, m') = (Ok 1, (d, m')).
Proof.
  intros Hp Hd Hbit. cbv zeta. rewrite kProbMax_eq in Hp.
  assert (Hm' : snd (BinShiftModel.adapt 0 bit m) = {| BinShiftModel.prob := kProbMax |}).
  { rewrite adapt_defined by lia. cbn [snd].
    destruct (Z.eqb_spec bit 0) as [E|_]; [contradiction|].
    rewrite Z.shiftr_0_r, kProbMax_eq.
    rewrite (u32_small (4096 - BinShiftModel.prob m)) by lia.
    replace (BinShiftModel.prob m + (4096 - BinShiftModel.prob m)) with 4096 by lia.
    reflexivity. }
  rewrite Hm'. split; [reflexivity|].
  rewrite model_decode_eq by lia. cbn [BinShiftModel.prob].
  destruct (dec_reachable_normal any_prob d Hd) as [(H0 & Hlc & Hch & Hhi) G].
  assert (Hdec : BinArithDecoder.decode kProbMax d = (Ok 1, d)).
  { rewrite dec_decode_eq.
    assert (Hsub : BinArithDecoder.subdivide kProbMax d = (Ok 1, d)).
    { unfold BinArithDecoder.subdivide. rewrite midpoint_certain by lia.
      destruct (BinArithDecoder.code d <=? BinArithDecoder.hi d) eqn:Hc;
        [|apply Z.leb_gt in Hc; lia].
      destruct d; reflexivity. }
    rewrite Hsub, dec_renorm_done by exact G. reflexivity. }
  rewrite Hdec. reflexivity.
Qed.

Lemma zero_inertia_model_gets_stuck_witness :
  let d := snd (BinArithDecoder.new [x12; x34; x56; x78]) in
  let m' := snd (BinShiftModel.adapt 0 1 BinShiftModel.new) in
  BinShiftModel.prob m' = kProbMax /\
  BinShiftModel.decode 0 (d, m') = (Ok 1, (d, m')).
Proof.
  apply (zero_inertia_model_gets_stuck 1
           (snd (BinArithDecoder.new [x12; x34; x56; x78])) BinShiftModel.new).
  - vm_compute. split; reflexivity.
  - apply (dec_reach_new any_prob [x12; x34; x56; x78]). reflexivity.
  - discriminate.
Defined.

Lemma collapsed_step lo w :
  0 <= lo < 2 ^ 32 -> w = 1 \/ w = 2 ^ 8 \/ w = 2 ^ 16 \/ w = 2 ^ 24 ->
  lo mod w = 0 ->
  top_byte_same lo (lo + w - 1) = true /\
  u32 (Z.shiftl lo 8) mod (w * 256) = 0 /\
  Z.lor (u32 (Z.shiftl (lo + w - 1) 8)) 255 = u32 (Z.shiftl lo 8) + w * 256 - 1.
Proof.
  intros Hlo Hw Hmod.
  rewrite shl8_lor_eq, shl8_eq by lia.
  assert (Hw' : 0 < w <= 2 ^ 24) by (destruct Hw as [->|[->|[->| ->]]]; lia).
  assert (Hdiv : (w | 2 ^ 24)).
  { destruct Hw as [->|[->|[->| ->]]];
      [exists (2 ^ 24) | exists (2 ^ 16) | exists (2 ^ 8) | exists 1]; reflexivity. }
  destruct Hdiv as [c Hc].
  assert (Hc0 : 0 < c) by nia.
  apply Z.mod_divide in Hmod; [|lia]. destruct Hmod as [q Hq].
  (* lo = q * w, and the low 24 bits of lo are (q mod c) * w *)
  assert (Hlow : lo mod 2 ^ 24 = (q mod c) * w).
  { rewrite Hq, Hc. rewrite Z.mul_mod_distr_r by lia. reflexivity. }
  assert (Hqc : 0 <= q mod c < c) by (apply Z.mod_pos_bound; lia).
  assert (Hlow' : (lo + w - 1) mod 2 ^ 24 = (q mod c) * w + w - 1).
  { replace (lo + w - 1) with ((lo mod 2 ^ 24 + (w - 1)) + (lo / 2 ^ 24) * 2 ^ 24)
      by (pose proof (Z.div_mod lo (2 ^ 24) ltac:(lia)); lia).
    rewrite Z.mod_add by lia. rewrite Hlow. rewrite Z.mod_small by nia. lia. }
  split; [|split].
  - apply top_byte_same_iff; [lia | lia |].
    pose proof (Z.div_mod lo (2 ^ 24) ltac:(lia)) as D1.
    pose proof (Z.div_mod (lo + w - 1) (2 ^ 24) ltac:(lia)) as D2.
    rewrite Hlow in D1. rewrite Hlow' in D2. nia.
  - rewrite Hlow. replace ((q mod c) * w * 256) with ((q mod c) * (w * 256)) by lia.
    apply Z.mod_mul. lia.
  - rewrite Hlow, Hlow'. lia.
Qed.

Lemma enc_renorm_collapsed e :
  0 <= BinArithEncoder.lo e < 2 ^ 32 ->
  BinArithEncoder.hi e = BinArithEncoder.lo e ->
  forall n,
    BinArithEncoder.renorm (4 + n) e =
      (Ok tt,
       {| BinArithEncoder.lo := 0;
          BinArithEncoder.hi := 2 ^ 32 - 1;
          BinArithEncoder.bytes :=
            BinArithEncoder.bytes e ++ be_bytes32 (BinArithEncoder.lo e) |}).
Proof.
  intros Hlo Hhi n.
  destruct (finish_bytes e) as (_ & Hfin & _).
  destruct e as [lo hi bytes]. simpl in Hlo, Hhi, Hfin.
  cbn [BinArithEncoder.lo BinArithEncoder.hi BinArithEncoder.bytes]. subst hi.
  (* round 1 *)
  destruct (collapsed_step lo 1 Hlo ltac:(auto) ltac:(apply Z.mod_1_r)) as (G0 & M1 & H1).
  replace (lo + 1 - 1) with lo in G0, H1 by lia.
  change (4 + n)%nat with (S (S (S (S n)))).
  rewrite enc_renorm_more by exact G0. simpl snd. rewrite H1.
  set (l1 := u32 (Z.shiftl lo 8)) in *.
  pose proof (u32_range (Z.shiftl lo 8)) as R1. fold l1 in R1.
  (* round 2 *)
  destruct (collapsed_step l1 (2 ^ 8) R1 ltac:(auto) M1) as (G1 & M2 & H2).
  change (1 * 256) with (2 ^ 8).
  rewrite enc_renorm_more by exact G1. simpl snd. rewrite H2.
  set (l2 := u32 (Z.shiftl l1 8)) in *.
  pose proof (u32_range (Z.shiftl l1 8)) as R2. fold l2 in R2.
  (* round 3 *)
  change (2 ^ 8 * 256) with (2 ^ 16) in *.
  destruct (collapsed_step l2 (2 ^ 16) R2 ltac:(auto) M2) as (G2 & M3 & H3).
  rewrite enc_renorm_more by exact G2. simpl snd. rewrite H3.
  set (l3 := u32 (Z.shiftl l2 8)) in *.
  pose proof (u32_range (Z.shiftl l2 8)) as R3. fold l3 in R3.
  (* round 4 *)
  change (2 ^ 16 * 256) with (2 ^ 24) in *.
  destruct (collapsed_step l3 (2 ^ 24) R3 ltac:(auto) M3) as (G3 & M4 & H4).
  rewrite enc_renorm_more by exact G3. simpl snd. rewrite H4.
  set (l4 := u32 (Z.shiftl l3 8)) in *.
  pose proof (u32_range (Z.shiftl l3 8)) as R4. fold l4 in R4.
  change (2 ^ 24 * 256) with (2 ^ 32) in *.
  rewrite Z.mod_small in M4 by lia. rewrite M4.
  rewrite enc_renorm_done by reflexivity.
  f_equal. f_equal. rewrite <- Hfin.
  unfold BinArithEncoder.finish, repeat_, BinArithEncoder.shift_out, bind, modify, ret.
  simpl. rewrite <- !app_assoc. reflexivity.
Qed.

Lemma midpoint_impossible lo hi :
  0 <= lo <= hi -> hi < 2 ^ 32 -> midpoint lo hi 0 = lo.
Proof.
  intros Hlh Hhi. rewrite midpoint_eq by lia.
  rewrite Z.mul_0_r. change (0 / 4096) with 0. lia.
Qed.

(** X11 (probability 0).  At [prob = 0] the subdivision point is [lo].
    Coding a 1 on a reachable encoder collapses the interval to [lo]: the
    call writes the four bytes of [lo], most significant first, and
    leaves the full interval [0, 2^32 - 1].  A reachable decoder returns
    1 at this probability exactly when [code = lo]. *)
Theorem impossible_one_costs_four_bytes
  (e : BinArithEncoder.t) (d : BinArithDecoder.t) (bit : Z) :
  enc_reachable valid_prob e ->
  dec_reachable any_prob d ->
  bit <> 0 ->
  BinArithEncoder.encode bit 0 e =
    (Ok tt,
     {| BinArithEncoder.lo := 0;
        BinArithEncoder.hi := 2 ^ 32 - 1;
        BinArithEncoder.bytes :=
          BinArithEncoder.bytes e ++ be_bytes32 (BinArithEncoder.lo e) |}) /\
  fst (BinArithDecoder.subdivide 0 d) =
    Ok (if BinArithDecoder.code d =? BinArithDecoder.lo d then 1 else 0).
Proof.
  intros He Hd Hbit. split.
  - destruct (enc_reachable_normal e He) as [(H0 & Hle & Hhi) G].
    destruct loop_fuel_enough as [k Hk]. rewrite enc_encode_eq, Hk.
    assert (Hsub : snd (BinArithEncoder.subdivide bit 0 e) =
                   {| BinArithEncoder.lo := BinArithEncoder.lo e;
                      BinArithEncoder.hi := BinArithEncoder.lo e;
                      BinArithEncoder.bytes := BinArithEncoder.bytes e |}).
    { unfold BinArithEncoder.subdivide, modify. simpl.
      destruct (Z.eqb_spec bit 0) as [E|_]; [contradiction|].
      rewrite midpoint_impossible by lia. reflexivity. }
    rewrite Hsub. rewrite enc_renorm_collapsed; [reflexivity | simpl; lia | reflexivity].
  - destruct (dec_reachable_normal any_prob d Hd) as [(H0 & Hlc & Hch & Hhi) _].
    unfold BinArithDecoder.subdivide. rewrite midpoint_impossible by lia.
    destruct (Z.leb_spec (BinArithDecoder.code d) (BinArithDecoder.lo d)) as [Hc|Hc];
      destruct (Z.eqb_spec (BinArithDecoder.code d) (BinArithDecoder.lo d)) as [E|E];
      simpl; try reflexivity; lia.
Qed.

Lemma impossible_one_costs_four_bytes_witness :
  let e := BinArithEncoder.new [] in
  let d := snd (BinArithDecoder.new [x12; x34; x56; x78]) in
  BinArithEncoder.encode 1 0 e =
    (Ok tt,
     {| BinArithEncoder.lo := 0;
        BinArithEncoder.hi := 2 ^ 32 - 1;
        BinArithEncoder.bytes :=
          BinArithEncoder.bytes e ++ be_bytes32 (BinArithEncoder.lo e) |}) /\
  fst (BinArithDecoder.subdivide 0 d) =
    Ok (if BinArithDecoder.code d =? BinArithDecoder.lo d then 1 else 0).
Proof.
  apply (impossible_one_costs_four_bytes (BinArithEncoder.new [])
           (snd (BinArithDecoder.new [x12; x34; x56; x78])) 1).
  - apply enc_reach_new.
  - apply (dec_reach_new any_prob [x12; x34; x56; x78]). reflexivity.
  - discriminate.
Defined.

(** ** Sessions: the end of the stream *)

Lemma finish_continues_before e junk :
  enc_inv e ->
  continues e (BinArithEncoder.bytes (snd (BinArithEncoder.finish e)) ++ junk).
Proof.
  intros (H0 & Hle & Hhi). destruct (finish_bytes e) as (_ & Hbytes & _).
  exists (be_bytes32 (BinArithEncoder.lo e) ++ junk).
  split; [rewrite Hbytes, <- app_assoc; reflexivity|].
  split; [rewrite length_app; simpl; lia|].
  change (window (be_bytes32 (BinArithEncoder.lo e) ++ junk))
    with (be_value (be_bytes32 (BinArithEncoder.lo e))).
  rewrite be_value_be_bytes32, u32_small by lia. lia.
Qed.

Section Session.
Context {SE SD : Type}.
Variable pe : SE -> BinArithEncoder.t.
Variable pd : SD -> BinArithDecoder.t.
Variable InvE : SE -> Prop.
Variable Rm : SE -> SD -> Prop.

(** A session whose stream is followed by other bytes: the decoder ends
    related to the encoder as it was before its destructor ran, with its
    cursor at the end of the stream. *)
Lemma mirrors_session_end {A : Type} (ep : M SE unit) (dp : M SD A) (a : A)
  (se0 : SE) (junk : list byte) :
  mirrors pe pd InvE Rm ep dp a ->
  InvE se0 -> pe se0 = BinArithEncoder.new [] ->
  exists se1 d0,
    ep se0 = (Ok tt, se1) /\
    BinArithDecoder.new
      (BinArithEncoder.bytes (snd (BinArithEncoder.finish (pe se1))) ++ junk)
      = (Ok tt, d0) /\
    forall sd0, pd sd0 = d0 -> Rm se0 sd0 ->
      exists sd',
        dp sd0 = (Ok a, sd') /\ Rm se1 sd' /\
        BinArithDecoder.read_pos (pd sd') =
          length (BinArithEncoder.bytes (snd (BinArithEncoder.finish (pe se1)))).
Proof.
  intros Hm Hinv Hnew.
  assert (Hn : enc_normal (pe se0)) by (rewrite Hnew; apply enc_new_normal).
  destruct (Hm se0 Hinv Hn) as (se1 & Hrun & _ & Hn1 & Hback & Hfwd).
  set (B := BinArithEncoder.bytes (snd (BinArithEncoder.finish (pe se1))) ++ junk).
  assert (Hc1 : continues (pe se1) B) by (apply finish_continues_before, Hn1).
  pose proof (Hback B Hc1) as Hc0. rewrite Hnew in Hc0.
  destruct (new_sync [] B Hc0 eq_refl) as (d0 & Hd0 & Hs0).
  exists se1, d0. split; [exact Hrun|]. split; [exact Hd0|].
  intros sd0 Hpd HR. rewrite <- Hnew, <- Hpd in Hs0.
  destruct (Hfwd sd0 B HR Hs0 Hc1) as (sd' & Hd & HR' & Hs').
  exists sd'. split; [exact Hd|]. split; [exact HR'|].
  destruct Hs' as (_ & Hpos & _). rewrite Hpos.
  destruct (finish_bytes (pe se1)) as (_ & Hbytes & _).
  rewrite Hbytes, length_app. reflexivity.
Qed.

Lemma mirrors_traverse {X Y : Type} (f : X -> M SE unit) (g : Y -> M SD Z)
  (enc_arg : X -> Z) (dec_arg : X -> Y) (xs : list X) :
  Forall (fun x => mirrors pe pd InvE Rm (f x) (g (dec_arg x)) (enc_arg x)) xs ->
  mirrors pe pd InvE Rm (for_each xs f) (traverse (map dec_arg xs) g) (map enc_arg xs).
Proof.
  induction 1 as [|x xs Hx _ IH]; simpl.
  - apply mirrors_ret.
  - apply (mirrors_bind _ _ _ _ _ _ _ _ (enc_arg x)); [exact Hx|].
    apply (mirrors_map _ _ _ _ _ _ (fun rest => enc_arg x :: rest)), IH.
Qed.

End Session.

Lemma mixed_mirrors (source : list (Z * Z)) :
  Forall (fun bp => is_bit (fst bp) /\ 0 < snd bp < kProbMax) source ->
  mirrors (fun e => e) (fun d => d) (fun _ => True) (fun _ _ => True)
    (for_each source (fun bp => BinArithEncoder.encode (fst bp) (snd bp)))
    (traverse (map snd source) BinArithDecoder.decode) (map fst source).
Proof.
  intros Hsrc.
  apply (mirrors_traverse _ _ _ _
           (fun bp : Z * Z => BinArithEncoder.encode (fst bp) (snd bp))
           BinArithDecoder.decode fst snd).
  eapply Forall_impl; [exact Hsrc|].
  intros [bit prob] [Hbit Hp]. apply raw_mirrors; assumption.
Qed.

(** X2 (a probability per bit).  When every bit is coded with its own
    probability, each strictly inside (0, kProbMax), a decoder that is
    given the same probabilities in the same order returns the bits. *)
Theorem mixed_round_trip (source : list (Z * Z)) :
  Forall (fun bp => is_bit (fst bp) /\ 0 < snd bp < kProbMax) source ->
  fst (mixed_encode source) = Ok tt /\
  fst (mixed_decode (map snd source)
         (BinArithEncoder.bytes (snd (mixed_encode source)))) = Ok (map fst source).
Proof.
  intros Hsrc. pose proof (mixed_mirrors source Hsrc) as Hm.
  destruct (mirrors_session _ _ _ _ _ _ _ (BinArithEncoder.new []) Hm I eq_refl)
    as (e1 & d0 & Hrun & Hnew & Hdec).
  destruct (Hdec d0 eq_refl I) as (d' & Hd).
  unfold mixed_encode, mixed_decode, bind. rewrite Hrun.
  destruct (finish_bytes e1) as (Hok & _).
  split; [exact Hok|]. rewrite Hnew, Hd. reflexivity.
Qed.

Lemma mixed_round_trip_witness :
  fst (mixed_encode [(1, 100); (0, 4000); (1, 2048); (1, 1)]) = Ok tt /\
  fst (mixed_decode (map snd [(1, 100); (0, 4000); (1, 2048); (1, 1)])
         (BinArithEncoder.bytes
            (snd (mixed_encode [(1, 100); (0, 4000); (1, 2048); (1, 1)]))))
    = Ok (map fst [(1, 100); (0, 4000); (1, 2048); (1, 1)]).
Proof.
  apply (mixed_round_trip [(1, 100); (0, 4000); (1, 2048); (1, 1)]).
  repeat constructor; simpl; (left; reflexivity) || (right; reflexivity) || idtac;
    vm_compute; reflexivity.
Defined.

(** X3 (the stream delimits itself).  Whatever bytes follow the stream of
    a session, a decoder that is asked for the bits of the session returns
    them, and its cursor stops exactly at the end of the stream: it reads
    every byte the encoder wrote and none of those that follow. *)
Theorem decoder_stops_at_end_of_stream (source : list (Z * Z)) (junk : list byte) :
  Forall (fun bp => is_bit (fst bp) /\ 0 < snd bp < kProbMax) source ->
  let coded := BinArithEncoder.bytes (snd (mixed_encode source)) in
  fst (mixed_decode (map snd source) (coded ++ junk)) = Ok (map fst source) /\
  BinArithDecoder.read_pos (snd (mixed_decode (map snd source) (coded ++ junk)))
    = length coded.
Proof.
  intros Hsrc. pose proof (mixed_mirrors source Hsrc) as Hm. cbv zeta.
  destruct (mirrors_session_end _ _ _ _ _ _ _ (BinArithEncoder.new []) junk Hm I eq_refl)
    as (e1 & d0 & Hrun & Hnew & Hdec).
  destruct (Hdec d0 eq_refl I) as (d' & Hd & _ & Hpos).
  unfold mixed_encode, mixed_decode, bind. rewrite Hrun.
  rewrite Hnew, Hd. split; [reflexivity | exact Hpos].
Qed.

Lemma decoder_stops_at_end_of_stream_witness :
  let coded := BinArithEncoder.bytes (snd (mixed_encode [(1, 100); (0, 4000); (1, 1)])) in
  fst (mixed_decode (map snd [(1, 100); (0, 4000); (1, 1)]) (coded ++ [xff; x00]))
    = Ok (map fst [(1, 100); (0, 4000); (1, 1)]) /\
  BinArithDecoder.read_pos
    (snd (mixed_decode (map snd [(1, 100); (0, 4000); (1, 1)]) (coded ++ [xff; x00])))
    = length coded.
Proof.
  apply (decoder_stops_at_end_of_stream [(1, 100); (0, 4000); (1, 1)] [xff; x00]).
  repeat constructor; simpl; (left; reflexivity) || (right; reflexivity) || idtac;
    vm_compute; reflexivity.
Defined.

(** ** The bit tree on any input *)

Lemma dec_decode_outcome prob d :
  exists o d',
    BinArithDecoder.decode prob d = (o, d') /\
    ((exists bit, o = Ok bit /\ is_bit bit) \/
     (o = Err Undefined /\
      (length (BinArithDecoder.bytes d') <= BinArithDecoder.read_pos d')%nat)).
Proof.
  destruct loop_fuel_enough as [k Hk]. rewrite dec_decode_eq, Hk.
  destruct (dec_subdivide_ok prob d) as (b & Hb & Hbit).
  destruct (BinArithDecoder.subdivide prob d) as [o1 d1].
  simpl in Hb. subst o1. cbv beta iota.
  destruct (dec_renorm_terminates (4 + k) d1)
    as (o & d' & Hrun & Hex & _); [lia|].
  rewrite Hrun.
  destruct Hex as [[-> Hg] | (-> & Hg & Hlen)].
  - exists (Ok b), d'. split; [reflexivity|]. left. exists b. auto.
  - exists (Err Undefined), d'. split; [reflexivity|]. right. auto.
Qed.

Lemma model_decode_outcome Inertia d m :
  0 <= Inertia <= 31 ->
  exists o d' m',
    BinShiftModel.decode Inertia (d, m) = (o, (d', m')) /\
    ((exists bit, o = Ok bit /\ is_bit bit) \/
     (o = Err Undefined /\
      (length (BinArithDecoder.bytes d') <= BinArithDecoder.read_pos d')%nat)).
Proof.
  intros HI. rewrite model_decode_eq by exact HI.
  destruct (dec_decode_outcome (BinShiftModel.prob m) d) as (o & d' & Hrun & Hcase).
  rewrite Hrun.
  destruct Hcase as [(bit & -> & Hbit) | (-> & Hlen)].
  - eexists _, _, _. split; [reflexivity|]. left. eauto.
  - eexists _, _, _. split; [reflexivity|]. right. auto.
Qed.

Lemma tree_decode_loop_outcome Inertia NumBits :
  0 <= Inertia <= 31 ->
  0 <= NumBits <= 30 ->
  forall (j fuel : nat) ctx d (ms : list BinShiftModel.t),
    (j <= fuel)%nat -> Z.of_nat j <= NumBits ->
    2 ^ (NumBits - Z.of_nat j) <= ctx < 2 * 2 ^ (NumBits - Z.of_nat j) ->
    length ms = Z.to_nat (2 ^ NumBits - 1) ->
    exists o d' ms',
      BitTreeModel.decode_loop (H := BinShiftModel_BitModel Inertia) NumBits fuel ctx (d, ms)
        = (o, (d', ms')) /\
      length ms' = length ms /\
      ((exists c, o = Ok c /\ 2 ^ NumBits <= c < 2 * 2 ^ NumBits) \/
       (o = Err Undefined /\
        (length (BinArithDecoder.bytes d') <= BinArithDecoder.read_pos d')%nat)).
Proof.
  intros HI HN. induction j as [|j IH]; intros fuel ctx d ms Hfuel Hj Hctx Hlen.
  - change (Z.of_nat 0) with 0 in Hctx. rewrite Z.sub_0_r in Hctx.
    rewrite decode_loop_done by (rewrite kNumSyms_eq; apply Z.ltb_ge; lia).
    exists (Ok ctx), d, ms. split; [reflexivity|]. split; [reflexivity|].
    left. exists ctx. auto.
  - destruct fuel as [|fuel]; [lia|].
    set (J := Z.of_nat (S j)) in *.
    assert (HJ : Z.of_nat j = J - 1) by lia.
    pose proof (pow2_pos (NumBits - J) ltac:(lia)) as Hp.
    assert (Hpow : 2 * 2 ^ (NumBits - J) <= 2 ^ NumBits).
    { replace NumBits with (1 + (NumBits - 1)) at 2 by lia.
      rewrite Z.pow_add_r by lia. change (2 ^ 1) with 2.
      assert (2 ^ (NumBits - J) <= 2 ^ (NumBits - 1)) by (apply Z.pow_le_mono_r; lia).
      lia. }
    pose proof (Z.pow_le_mono_r 2 NumBits 62 ltac:(lia) ltac:(lia)) as HN62.
    change (2 ^ 62) with 4611686018427387904 in HN62.
    rewrite decode_loop_more by (rewrite kNumSyms_eq; apply Z.ltb_lt; lia).
    assert (Hidx : (Z.to_nat (u64 (ctx - 1)) < length ms)%nat)
      by (rewrite u64_small by lia; lia).
    destruct (lookup_lt_is_Some_2 ms _ Hidx) as [m Hlook].
    unfold bind at 1. unfold BitTreeModel.at_model at 1.
    cbn [fst snd]. rewrite Hlook. simpl bm_decode.
    destruct (model_decode_outcome Inertia d m HI) as (o & d1 & m1 & Hrun & Hcase).
    rewrite Hrun. cbn [fst snd].
    destruct Hcase as [(bit & -> & Hbit) | (-> & Hunder)].
    + assert (Hbit' : 0 <= bit <= 1) by (destruct Hbit; lia).
      rewrite (u64_small (ctx + bit)), (u64_small (ctx + (ctx + bit))) by lia.
      destruct (IH fuel (ctx + (ctx + bit)) d1 (<[Z.to_nat (u64 (ctx - 1)) := m1]> ms))
        as (o & d' & ms' & Hloop & Hlen' & Hcase); [lia | lia | | |].
      { rewrite HJ. replace (NumBits - (J - 1)) with (1 + (NumBits - J)) by lia.
        rewrite Z.pow_add_r by lia. change (2 ^ 1) with 2. lia. }
      { rewrite length_insert. exact Hlen. }
      exists o, d', ms'. split; [exact Hloop|].
      split; [rewrite Hlen', length_insert; reflexivity | exact Hcase].
    + exists (Err Undefined), d1, (<[Z.to_nat (u64 (ctx - 1)) := m1]> ms).
      split; [reflexivity|]. split; [apply length_insert|]. right. auto.
Qed.

(** X12 (what the tree decodes).  For [NumBits] from 1 to 30 and models
    of an inertia from 0 to 31, on any decoder state and any array of
    [kNumSyms - 1] models, [BitTreeModel::decode] has one of two
    outcomes: it returns a value in [0, 2^NumBits), or it ends with
    [Undefined], which only the decoder's read past the end of the source
    raises, and then the source is used up.  So it never stops with
    [BadIndex], an index outside the model array, nor with a shift by a
    count it is undefined for, nor by running out of fuel.  The array
    keeps its size. *)
Theorem tree_decode_in_range
  (Inertia NumBits : Z) (d : BinArithDecoder.t) (ms : list BinShiftModel.t) :
  0 <= Inertia <= 31 ->
  1 <= NumBits <= 30 ->
  length ms = Z.to_nat (2 ^ NumBits - 1) ->
  exists o d' ms',
    BitTreeModel.decode (H := BinShiftModel_BitModel Inertia) NumBits (d, ms)
      = (o, (d', ms')) /\
    length ms' = length ms /\
    ((exists v, o = Ok v /\ 0 <= v < 2 ^ NumBits) \/
     (o = Err Undefined /\
      (length (BinArithDecoder.bytes d') <= BinArithDecoder.read_pos d')%nat)).
Proof.
  intros HI HN Hlen.
  destruct (tree_decode_loop_outcome Inertia NumBits HI ltac:(lia)
              (Z.to_nat NumBits) loop_fuel 1 d ms)
    as (o & d' & ms' & Hloop & Hlen' & Hcase);
    [unfold loop_fuel; lia | lia | | exact Hlen |].
  { rewrite Z2Nat.id, Z.sub_diag by lia. change (2 ^ 0) with 1. lia. }
  pose proof (Z.pow_le_mono_r 2 NumBits 62 ltac:(lia) ltac:(lia)) as HN62.
  change (2 ^ 62) with 4611686018427387904 in HN62.
  unfold BitTreeModel.decode, bind. rewrite Hloop.
  destruct Hcase as [(c & -> & Hc) | (-> & Hunder)].
  - eexists _, d', ms'. split; [reflexivity|]. split; [exact Hlen'|].
    left. eexists. split; [reflexivity|].
    rewrite kNumSyms_eq, u64_small by lia. lia.
  - exists (Err Undefined), d', ms'. split; [reflexivity|]. split; [exact Hlen'|].
    right. auto.
Qed.

Lemma tree_decode_in_range_witness :
  exists o d' ms',
    BitTreeModel.decode (H := BinShiftModel_BitModel 5) 3
      (snd (BinArithDecoder.new [x12; x34; x56; x78]),
       BitTreeModel.new (H := BinShiftModel_BitModel 5) 3)
      = (o, (d', ms')) /\
    length ms' = length (BitTreeModel.new (H := BinShiftModel_BitModel 5) 3) /\
    ((exists v, o = Ok v /\ 0 <= v < 2 ^ 3) \/
     (o = Err Undefined /\
      (length (BinArithDecoder.bytes d') <= BinArithDecoder.read_pos d')%nat)).
Proof.
  apply (tree_decode_in_range 5 3
           (snd (BinArithDecoder.new [x12; x34; x56; x78]))
           (BitTreeModel.new (H := BinShiftModel_BitModel 5) 3)).
  - lia.
  - lia.
  - reflexivity.
Defined.

Lemma tree_encode_loop_total Inertia NumBits :
  0 <= Inertia <= 31 ->
  0 <= NumBits <= 30 ->
  forall (j fuel : nat) ctx value e (ms : list BinShiftModel.t),
    (j <= fuel)%nat -> Z.of_nat j <= NumBits ->
    2 ^ (NumBits - Z.of_nat j) <= ctx < 2 * 2 ^ (NumBits - Z.of_nat j) ->
    length ms = Z.to_nat (2 ^ NumBits - 1) ->
    exists e' ms' out,
      BitTreeModel.encode_loop (H := BinShiftModel_BitModel Inertia) NumBits fuel ctx value
        (e, ms) = (Ok tt, (e', ms')) /\
      length ms' = length ms /\
      BinArithEncoder.bytes e' = BinArithEncoder.bytes e ++ out /\
      (length out <= 4 * j)%nat.
Proof.
  intros HI HN. induction j as [|j IH]; intros fuel ctx value e ms Hfuel Hj Hctx Hlen.
  - change (Z.of_nat 0) with 0 in Hctx. rewrite Z.sub_0_r in Hctx.
    rewrite encode_loop_done by (rewrite kNumSyms_eq; apply Z.ltb_ge; lia).
    exists e, ms, []. rewrite app_nil_r. repeat split. simpl. lia.
  - destruct fuel as [|fuel]; [lia|].
    set (J := Z.of_nat (S j)) in *.
    assert (HJ : Z.of_nat j = J - 1) by lia.
    pose proof (pow2_pos (NumBits - J) ltac:(lia)) as Hp.
    assert (Hpow : 2 * 2 ^ (NumBits - J) <= 2 ^ NumBits).
    { replace NumBits with (1 + (NumBits - 1)) at 2 by lia.
      rewrite Z.pow_add_r by lia. change (2 ^ 1) with 2.
      assert (2 ^ (NumBits - J) <= 2 ^ (NumBits - 1)) by (apply Z.pow_le_mono_r; lia).
      lia. }
    pose proof (Z.pow_le_mono_r 2 NumBits 62 ltac:(lia) ltac:(lia)) as HN62.
    change (2 ^ 62) with 4611686018427387904 in HN62.
    rewrite encode_loop_more by (rewrite kNumSyms_eq; apply Z.ltb_lt; lia).
    set (bit := if Z.land value (BitTreeModel.kMSB NumBits) =? 0 then 0 else 1).
    assert (Hbit : 0 <= bit <= 1) by (unfold bit; destruct (_ =? 0); lia).
    assert (Hidx : (Z.to_nat (u64 (ctx - 1)) < length ms)%nat)
      by (rewrite u64_small by lia; lia).
    destruct (lookup_lt_is_Some_2 ms _ Hidx) as [m Hlook].
    unfold bind at 1. unfold BitTreeModel.at_model at 1.
    cbn [fst snd]. rewrite Hlook. simpl bm_encode.
    rewrite model_encode_eq by exact HI. cbn [fst snd].
    destruct (enc_encode_appends bit (BinShiftModel.prob m) e)
      as (e1 & out1 & Hrun1 & Hout1 & Hlen1).
    rewrite Hrun1. cbn [fst snd].
    rewrite (u64_small (ctx + bit)), (u64_small (ctx + (ctx + bit))) by lia.
    destruct (IH fuel (ctx + (ctx + bit)) (u64 (value + value)) e1
                (<[Z.to_nat (u64 (ctx - 1)) := snd (BinShiftModel.adapt Inertia bit m)]> ms))
      as (e' & ms' & out & Hloop & Hlen' & Hout & Hlenout); [lia | lia | | |].
    { rewrite HJ. replace (NumBits - (J - 1)) with (1 + (NumBits - J)) by lia.
      rewrite Z.pow_add_r by lia. change (2 ^ 1) with 2. lia. }
    { rewrite length_insert. exact Hlen. }
    exists e', ms', (out1 ++ out). split; [exact Hloop|].
    split; [rewrite Hlen', length_insert; reflexivity|].
    split; [rewrite Hout, Hout1, app_assoc; reflexivity|].
    rewrite length_app. lia.
Qed.

(** X13 (the tree always encodes).  For [NumBits] from 1 to 30 and models
    of an inertia from 0 to 31, on every encoder state and every array of
    [kNumSyms - 1] models, [BitTreeModel::encode] of a value in
    [0, 2^NumBits) succeeds: no index leaves the array, no shift is
    undefined and the fuel is not used up.  The array keeps its size, the
    sink keeps what it held, and at most [4 * NumBits] bytes are appended
    to it. *)
Theorem tree_encode_total
  (Inertia NumBits value : Z) (e : BinArithEncoder.t) (ms : list BinShiftModel.t) :
  0 <= Inertia <= 31 ->
  1 <= NumBits <= 30 ->
  0 <= value < 2 ^ NumBits ->
  length ms = Z.to_nat (2 ^ NumBits - 1) ->
  exists e' ms' out,
    BitTreeModel.encode (H := BinShiftModel_BitModel Inertia) NumBits value (e, ms)
      = (Ok tt, (e', ms')) /\
    length ms' = length ms /\
    BinArithEncoder.bytes e' = BinArithEncoder.bytes e ++ out /\
    (length out <= 4 * Z.to_nat NumBits)%nat.
Proof.
  intros HI HN Hv Hlen. unfold BitTreeModel.encode.
  rewrite kNumSyms_eq. destruct (Z.ltb_spec value (2 ^ NumBits)) as [_|Hge]; [|lia].
  apply tree_encode_loop_total; try assumption.
  - lia.
  - unfold loop_fuel. lia.
  - lia.
  - rewrite Z2Nat.id, Z.sub_diag by lia. change (2 ^ 0) with 1. lia.
Qed.

Lemma tree_encode_total_witness :
  exists e' ms' out,
    BitTreeModel.encode (H := BinShiftModel_BitModel 5) 3 6
      (BinArithEncoder.new [], BitTreeModel.new (H := BinShiftModel_BitModel 5) 3)
      = (Ok tt, (e', ms')) /\
    length ms' = length (BitTreeModel.new (H := BinShiftModel_BitModel 5) 3) /\
    BinArithEncoder.bytes e' = BinArithEncoder.bytes (BinArithEncoder.new []) ++ out /\
    (length out <= 4 * Z.to_nat 3)%nat.
Proof.
  apply (tree_encode_total 5 3 6 (BinArithEncoder.new [])
           (BitTreeModel.new (H := BinShiftModel_BitModel 5) 3)).
  - lia.
  - lia.
  - lia.
  - reflexivity.
Defined.

(** The context visited when [j] bits of [v] are still to be coded. *)
Lemma tree_path_loop Inertia NumBits v (i : nat) :
  1 <= NumBits <= 16 -> 0 <= v < 2 ^ NumBits ->
  (forall j, 1 <= j <= NumBits -> i <> Z.to_nat (2 ^ (NumBits - j) + v / 2 ^ j - 1)) ->
  forall (j fuel : nat) e (ms : list BinShiftModel.t),
    Z.of_nat j <= NumBits ->
    snd (snd (BitTreeModel.encode_loop (H := BinShiftModel_BitModel Inertia) NumBits fuel
                (2 ^ (NumBits - Z.of_nat j) + v / 2 ^ Z.of_nat j)
                (v * 2 ^ (NumBits - Z.of_nat j)) (e, ms))) !! i = ms !! i.
Proof.
  intros HN Hv Hoff. induction j as [|j IH]; intros fuel e ms Hj.
  - change (Z.of_nat 0) with 0. rewrite Z.sub_0_r, Z.div_1_r.
    rewrite encode_loop_done by (rewrite kNumSyms_eq; apply Z.ltb_ge; lia).
    reflexivity.
  - set (J := Z.of_nat (S j)) in *.
    assert (HJ : Z.of_nat j = J - 1) by lia.
    pose proof (tree_ctx_bounds NumBits v J ltac:(lia) Hv) as Hq.
    pose proof (pow2_pos (NumBits - J) ltac:(lia)) as Hp.
    assert (Hpow : 2 * 2 ^ (NumBits - J) <= 2 ^ NumBits).
    { replace NumBits with (1 + (NumBits - 1)) at 2 by lia.
      rewrite Z.pow_add_r by lia. change (2 ^ 1) with 2.
      assert (2 ^ (NumBits - J) <= 2 ^ (NumBits - 1)) by (apply Z.pow_le_mono_r; lia).
      lia. }
    pose proof (Z.pow_le_mono_r 2 NumBits 16 ltac:(lia) ltac:(lia)) as HN16.
    change (2 ^ 16) with 65536 in HN16.
    set (ctx := 2 ^ (NumBits - J) + v / 2 ^ J) in *.
    assert (Hc : (ctx <? BitTreeModel.kNumSyms NumBits) = true)
      by (rewrite kNumSyms_eq; apply Z.ltb_lt; lia).
    destruct fuel as [|fuel].
    { simpl. rewrite Hc. reflexivity. }
    rewrite encode_loop_more by exact Hc.
    rewrite (tree_bit_eq NumBits v (NumBits - J)) by lia.
    replace (NumBits - 1 - (NumBits - J)) with (J - 1) by lia.
    set (bit := (v / 2 ^ (J - 1)) mod 2).
    pose proof (mod2_is_bit (v / 2 ^ (J - 1))) as Hbit. fold bit in Hbit.
    assert (Hbit' : 0 <= bit <= 1) by (destruct Hbit; lia).
    assert (Hctx' : u64 (ctx + u64 (ctx + bit)) =
                    2 ^ (NumBits - (J - 1)) + v / 2 ^ (J - 1)).
    { rewrite (u64_small (ctx + bit)) by lia. rewrite u64_small by lia.
      rewrite <- (tree_ctx_next NumBits v J) by lia. fold ctx bit. lia. }
    assert (Hval' : u64 (v * 2 ^ (NumBits - J) + v * 2 ^ (NumBits - J)) =
                    v * 2 ^ (NumBits - (J - 1))).
    { replace (NumBits - (J - 1)) with (1 + (NumBits - J)) by lia.
      rewrite Z.pow_add_r by lia. change (2 ^ 1) with 2.
      rewrite u64_small; [lia|].
      assert (0 <= v * 2 ^ (NumBits - J) <= 65536 * 65536) by nia. lia. }
    rewrite Hval', Hctx', <- HJ.
    unfold bind at 1. unfold BitTreeModel.at_model at 1. cbn [fst snd].
    destruct (ms !! Z.to_nat (u64 (ctx - 1))) as [m|] eqn:Hlook; [|reflexivity].
    simpl bm_encode. rewrite model_encode_run. cbn [fst snd].
    assert (Hne : Z.to_nat (u64 (ctx - 1)) <> i).
    { rewrite u64_small by lia. intros Heq. apply (Hoff J ltac:(lia)).
      unfold ctx in Heq. symmetry. exact Heq. }
    destruct (fst (BinShiftModel.adapt Inertia bit m)) as [[]|f]; cbn [fst snd].
    + rewrite IH by lia. apply list_lookup_insert_ne. exact Hne.
    + apply list_lookup_insert_ne. exact Hne.
Qed.

(** X14 (one path per symbol).  Coding a symbol [v] touches only the
    models on the path of [v] through the tree, those at the indices
    [2^(NumBits-j) + v / 2^j - 1] for [j] from [NumBits] down to 1: every
    other model of the array is after the call what it was before. *)
Theorem tree_encode_keeps_other_models
  (Inertia NumBits v : Z) (e : BinArithEncoder.t) (ms : list BinShiftModel.t) (i : nat) :
  1 <= NumBits <= 16 ->
  0 <= v < 2 ^ NumBits ->
  (forall j, 1 <= j <= NumBits -> i <> Z.to_nat (2 ^ (NumBits - j) + v / 2 ^ j - 1)) ->
  snd (snd (BitTreeModel.encode (H := BinShiftModel_BitModel Inertia) NumBits v (e, ms))) !! i
    = ms !! i.
Proof.
  intros HN Hv Hoff. unfold BitTreeModel.encode.
  rewrite kNumSyms_eq. destruct (Z.ltb_spec v (2 ^ NumBits)) as [_|Hge]; [|lia].
  pose proof (tree_path_loop Inertia NumBits v i HN Hv Hoff (Z.to_nat NumBits) loop_fuel e ms
                ltac:(lia)) as Hloop.
  rewrite Z2Nat.id, Z.sub_diag in Hloop by lia.
  rewrite (Z.div_small v) in Hloop by lia.
  change (2 ^ 0 + 0) with 1 in Hloop. change (2 ^ 0) with 1 in Hloop.
  rewrite Z.mul_1_r in Hloop. exact Hloop.
Qed.

Lemma tree_encode_keeps_other_models_witness :
  snd (snd (BitTreeModel.encode (H := BinShiftModel_BitModel 5) 3 6
              (BinArithEncoder.new [],
               BitTreeModel.new (H := BinShiftModel_BitModel 5) 3))) !! 1%nat
    = BitTreeModel.new (H := BinShiftModel_BitModel 5) 3 !! 1%nat.
Proof.
  apply (tree_encode_keeps_other_models 5 3 6 (BinArithEncoder.new [])
           (BitTreeModel.new (H := BinShiftModel_BitModel 5) 3) 1%nat).
  - lia.
  - lia.
  - intros j Hj.
    assert (Hcases : j = 1 \/ j = 2 \/ j = 3) by lia.
    destruct Hcases as [->|[->| ->]]; vm_compute; lia.
Defined.

(** ** Sessions with models: the two sides end alike *)

(** X15 (end of a tree session).  After the round trip of a tree session
    over models of an inertia from 1 to 31, with [NumBits] in [1, 16],
    whatever bytes follow the stream, the decoder's array of models is
    equal to the encoder's, model by model, and the decoder's cursor is at
    the end of the stream. *)
Theorem tree_session_ends_in_step
  (Inertia NumBits : Z) (source : list Z) (junk : list byte) :
  1 <= Inertia <= 31 ->
  1 <= NumBits <= 16 ->
  Forall (fun v => 0 <= v < 2 ^ NumBits) source ->
  let session := tree_encode (H := BinShiftModel_BitModel Inertia) NumBits source in
  let coded := BinArithEncoder.bytes (fst (snd session)) in
  exists d0 d',
    BinArithDecoder.new (coded ++ junk) = (Ok tt, d0) /\
    collect (length source)
      (BitTreeModel.decode (H := BinShiftModel_BitModel Inertia) NumBits)
      (d0, BitTreeModel.new (H := BinShiftModel_BitModel Inertia) NumBits)
      = (Ok source, (d', snd (snd session))) /\
    BinArithDecoder.read_pos d' = length coded.
Proof.
  intros HI HN Hsrc. cbv zeta.
  pose proof (shift_model_lawful Inertia HI) as Hlaw.
  set (InvT := fun m => valid_prob (BinShiftModel.prob m)) in *.
  assert (Hm : mirrors fst fst (tree_inv InvT NumBits) (fun s s' => snd s = snd s')
                 (for_each source
                    (BitTreeModel.encode (H := BinShiftModel_BitModel Inertia) NumBits))
                 (collect (length source)
                    (BitTreeModel.decode (H := BinShiftModel_BitModel Inertia) NumBits))
                 source).
  { apply mirrors_for_each. eapply Forall_impl; [exact Hsrc|].
    intros v Hv. apply tree_mirrors; assumption. }
  destruct (mirrors_session_end _ _ _ _ _ _ source
              (BinArithEncoder.new [],
               BitTreeModel.new (H := BinShiftModel_BitModel Inertia) NumBits)
              junk Hm (tree_new_inv InvT NumBits _ (proj1 Hlaw)) eq_refl)
    as ([e1 ms1] & d0 & Hrun & Hnew & Hdec).
  destruct (Hdec (d0, BitTreeModel.new (H := BinShiftModel_BitModel Inertia) NumBits)
              eq_refl eq_refl) as ([d' ms'] & Hd & HR & Hpos).
  cbn [fst snd] in Hnew, HR, Hpos. subst ms'.
  unfold tree_encode, bind. rewrite Hrun. unfold on_fst. cbn [fst snd].
  destruct (BinArithEncoder.finish e1) as [o e2]. cbn [fst snd] in *.
  exists d0, d'. split; [exact Hnew|]. split; [exact Hd | exact Hpos].
Qed.

Lemma tree_session_ends_in_step_witness :
  let session := tree_encode (H := BinShiftModel_BitModel 5) 3 [5; 0; 7] in
  let coded := BinArithEncoder.bytes (fst (snd session)) in
  exists d0 d',
    BinArithDecoder.new (coded ++ [xab]) = (Ok tt, d0) /\
    collect (length [5; 0; 7])
      (BitTreeModel.decode (H := BinShiftModel_BitModel 5) 3)
      (d0, BitTreeModel.new (H := BinShiftModel_BitModel 5) 3)
      = (Ok [5; 0; 7], (d', snd (snd session))) /\
    BinArithDecoder.read_pos d' = length coded.
Proof.
  apply (tree_session_ends_in_step 5 3 [5; 0; 7] [xab]).
  - lia.
  - lia.
  - repeat constructor; simpl; lia.
Defined.

